(** * Charticulator: the rectangle glyph class and its constraint model

    A shallow embedding of [core/prototypes/glyphs] (class [RectangleGlyph]
    and its base [GlyphClass]) together with the parts of the constraint
    solver interface the class calls into.

    Numbers.  The source computes with JavaScript numbers.  Every literal
    of the class (0, 60, 100, 2, 0.5, 1, -1, 10000) and every value its
    arithmetic produces from them is a dyadic rational of small magnitude,
    on which binary64 arithmetic is exact; attribute values are therefore
    modelled as canonical rationals [Qc], whose equality is Leibniz
    equality and whose operations compute. *)

From Stdlib Require Import QArith Qcanon.
From stdpp Require Import base option numbers strings list gmap fin_maps.

Local Open Scope Qc_scope.

(** ** Numbers *)

Abbreviation number := Qc.

Definition num (q : Q) : number := Q2Qc q.
Arguments num q%_Q.

#[global] Instance number_inhabited : Inhabited number := populate 0.

(** ** [Specification]: attribute maps and element state *)

(** [Specification.AttributeMap] is a plain object indexed by attribute
    name; the finite map holds its own properties.  The class reads and
    writes the declared names only, none of which [Object.prototype]
    supplies, so a read of a name that is not a key yields [undefined]
    ([None]) and a write is an insertion. *)
Abbreviation AttributeMap := (gmap string number).

Record MarkState : Type := mkMarkState {
  mark_attributes : AttributeMap
}.

(** [Specification.GlyphState]: the glyph's own attribute map and the
    ordered states of its child marks. *)
Record GlyphState : Type := mkGlyphState {
  attributes : AttributeMap;
  marks : list MarkState
}.

(** ** Completions of JavaScript evaluation *)

(** [TypeError] is what the runtime raises when a property of [undefined]
    is read.  [UnknownAttribute] and [Infeasible] are the failures the
    design names for attribute access and for solving. *)
Inductive Exception : Type :=
  | TypeError
  | UnknownAttribute
  | Infeasible.

Inductive Completion (A : Type) : Type :=
  | Normal (a : A)
  | Throw (e : Exception).
Arguments Normal {A} a.
Arguments Throw {A} e.

#[global] Instance Exception_eq_dec : EqDecision Exception.
Proof. solve_decision. Defined.

(** ** Property access on an attribute map *)

(** The class has no accessor functions: it reads an attribute with
    [attrs.k] and writes it with [attrs.k = v], on an ordinary object
    whose prototype is [Object.prototype].  The primitive kinds of value
    a property may hold; a property holds the value it was assigned,
    with its kind. *)
Inductive AttributeValue : Type :=
  | ANumber (q : number)
  | AString (s : string)
  | ABoolean (b : bool).

Module JsObject.

(** The own properties of an object, by name. *)
Abbreviation Properties := (gmap string AttributeValue).

(** The members of [Object.prototype], which every plain object
    inherits. *)
Definition prototype : list string :=
  [ "constructor"; "hasOwnProperty"; "isPrototypeOf";
    "propertyIsEnumerable"; "toLocaleString"; "toString"; "valueOf";
    "__defineGetter__"; "__defineSetter__"; "__lookupGetter__";
    "__lookupSetter__"; "__proto__" ].

(** What a property read evaluates to: the value of an own property, the
    member of [Object.prototype] of that name, or [undefined]. *)
Inductive Read : Type :=
  | Own (v : AttributeValue)
  | Inherited (name : string)
  | Undefined.

(** [attrs[name]]: an own property is found first, then the prototype is
    searched; no schema is consulted and nothing is raised. *)
Definition get (attrs : Properties) (name : string) : Completion Read :=
  Normal (match attrs !! name with
          | Some v => Own v
          | None => if bool_decide (name ∈ prototype) then Inherited name
                    else Undefined
          end).

(** [attrs[name] = v]: an own property is overwritten.  Otherwise an own
    property is created, the inherited members being writable data
    properties, except under [__proto__], an accessor whose setter
    ignores a primitive value.  The value is stored as given; no schema
    is consulted and nothing is raised. *)
Definition set (attrs : Properties) (name : string) (v : AttributeValue)
  : Completion Properties :=
  Normal (match attrs !! name with
          | Some _ => <[name := v]> attrs
          | None => if bool_decide (name = "__proto__") then attrs
                    else <[name := v]> attrs
          end).

(** The object an attribute map of numbers stands for. *)
Definition of_attributes (attrs : AttributeMap) : Properties :=
  ANumber <$> attrs.

End JsObject.

(** ** The solver interface used by element classes *)

Inductive ConstraintStrength : Type :=
  | HARD
  | STRONG
  | MEDIUM
  | WEAK.

Inductive VariableStrength : Type :=
  | NONE
  | WEAKER.

#[global] Instance ConstraintStrength_eq_dec : EqDecision ConstraintStrength.
Proof. solve_decision. Defined.

(** The attribute map a solver variable is bound to: the glyph's own map
    ([this.state.attributes]) or that of its [i]-th mark
    ([this.state.marks[i].attributes]). *)
Inductive Owner : Type :=
  | OGlyph
  | OMark (i : nat).

#[global] Instance Owner_eq_dec : EqDecision Owner.
Proof. solve_decision. Defined.

(** A variable handle names one attribute of one attribute map. *)
Record VariableHandle : Type := mkVar {
  var_owner : Owner;
  var_name : string
}.

#[global] Instance VariableHandle_eq_dec : EqDecision VariableHandle.
Proof. solve_decision. Defined.

#[global] Instance VariableHandle_inhabited : Inhabited VariableHandle :=
  populate (mkVar OGlyph "").

Definition Term : Type := number * VariableHandle.

(** One [addLinear(strength, constant, lhs, rhs)] registration. *)
Record Linear : Type := mkLinear {
  strength : ConstraintStrength;
  constant : number;
  lhs : list Term;
  rhs : list Term
}.

(** Modelled from the spec: the solver module is not part of the sources
    at hand; a session holds the variables allocated so far, each with the
    value it was seeded with ([None] when the attribute was [undefined]),
    and the constraints registered so far, both in registration order. *)
Record ConstraintSolver : Type := mkSolver {
  variables : list (VariableHandle * option number);
  constraints : list Linear
}.

Definition newSolver : ConstraintSolver :=
  {| variables := []; constraints := [] |}.

(** Methods that take the solver thread it and may raise. *)
Definition M (A : Type) : Type :=
  ConstraintSolver → ConstraintSolver * Completion A.

Definition ret {A} (a : A) : M A := λ s, (s, Normal a).

Definition bind {A B} (m : M A) (k : A → M B) : M B :=
  λ s, match m s with
       | (s', Normal a) => k a s'
       | (s', Throw e) => (s', Throw e)
       end.

Notation "'let*' x ':=' m 'in' k" := (bind m (λ x, k))
  (at level 10, x name, m at level 100, k at level 200,
   format "'[v' 'let*'  x  ':='  m  'in'  '/' k ']'").
Notation "m ';;' k" := (bind m (λ _, k))
  (at level 100, k at level 200, right associativity,
   format "'[v' m  ';;'  '/' k ']'").

(** Lifting of a completion that does not touch the solver. *)
Definition lift {A} (c : Completion A) : M A := λ s, (s, c).

Definition is_registered (v : VariableHandle) (s : ConstraintSolver) : bool :=
  bool_decide (v ∈ (variables s).*1).

(** Modelled from the spec: a variable is allocated once, seeded with a
    starting guess; asking again for an allocated one changes nothing. *)
Definition allocate (v : VariableHandle) (seed : option number)
    (s : ConstraintSolver) : ConstraintSolver :=
  {| variables := if is_registered v s then variables s
                  else variables s ++ [(v, seed)];
     constraints := constraints s |}.

(** Modelled from the spec: [solver.attr(map, name)] hands out the variable
    of attribute [name] of [map], allocating it on first use, seeded with
    the attribute's current value. *)
Definition attr (o : Owner) (map : AttributeMap) (name : string)
  : M VariableHandle :=
  λ s, let v := mkVar o name in (allocate v (map !! name) s, Normal v).

(** [solver.attrs(map, names)]: one handle per name, in order. *)
Fixpoint attrs (o : Owner) (map : AttributeMap) (names : list string)
  : M (list VariableHandle) :=
  match names with
  | [] => ret []
  | name :: rest =>
      let* v := attr o map name in
      let* vs := attrs o map rest in
      ret (v :: vs)
  end.

(** Modelled from the spec: [solver.addLinear(strength, constant, lhs, rhs)]
    registers [Σ lhs = Σ rhs + constant]; an omitted [rhs] is the empty
    sum and is passed as [[]]. *)
Definition addLinear (st : ConstraintStrength) (c : number)
    (l r : list Term) : M unit :=
  λ s, ({| variables := variables s;
           constraints := constraints s ++ [mkLinear st c l r] |},
        Normal tt).

(** [marks[i].attributes]: indexing past the end yields [undefined], and
    reading a property of [undefined] raises. *)
Definition mark_attributes_at (ms : list MarkState) (i : nat)
  : Completion AttributeMap :=
  match ms !! i with
  | Some m => Normal (mark_attributes m)
  | None => Throw TypeError
  end.

(** ** [SnappingGuides] and [Handles] descriptions *)

Module SnappingGuides.

Record Axis : Type := mkAxis {
  type : string;
  value : option number;
  attribute : string;
  visible : bool
}.

End SnappingGuides.

Module Handles.

Record Action : Type := mkAction {
  action_type : string;
  action_attribute : string
}.

Record Line : Type := mkLine {
  type : string;
  axis : string;
  actions : list Action;
  value : option number;
  span : number * number
}.

End Handles.

(** [AttributeDescription], with the fields the rectangle glyph fills in. *)
Record AttributeDescription : Type := mkDescription {
  name : string;
  type : string;
  mode : string;
  category : option string;
  displayName : option string;
  defaultRange : option (number * number);
  desc_strength : VariableStrength
}.

(** ** [RectangleGlyph] *)

Module RectangleGlyph.

Definition classID : string := "glyph.rectangle".

Definition attributeNames : list string :=
  [ "x1"; "y1"; "x2"; "y2"; "x"; "y"; "width"; "height";
    "ix1"; "iy1"; "ix2"; "iy2"; "icx"; "icy" ].

Definition positional (n : string) : AttributeDescription :=
  mkDescription n "number" "positional" None None None NONE.

Definition dimension (n display : string) : AttributeDescription :=
  mkDescription n "number" "intrinsic" (Some "dimensions") (Some display)
    (Some (num 30, num 200)) WEAKER.

Definition attributeDescriptions : gmap string AttributeDescription :=
  list_to_map
    [ ("x1", positional "x1"); ("y1", positional "y1");
      ("x2", positional "x2"); ("y2", positional "y2");
      ("x", positional "x"); ("y", positional "y");
      ("width", dimension "width" "Width");
      ("height", dimension "height" "Height");
      ("ix1", positional "ix1"); ("iy1", positional "iy1");
      ("ix2", positional "ix2"); ("iy2", positional "iy2");
      ("icx", positional "icx"); ("icy", positional "icy") ].

(** A glyph state before [initializeState] has run: no attribute is set
    yet, whatever marks the glyph owns. *)
Definition freshState (ms : list MarkState) : GlyphState :=
  {| attributes := ∅; marks := ms |}.

(** [initializeState]: the assignments of the source in order; a read
    [attrs.k] inside an arithmetic expression is the total lookup
    [attrs !!! k] (every such read follows the write of [k]). *)
Definition initializeState (state : GlyphState) : GlyphState :=
  let attrs := attributes state in
  let attrs := <["x" := 0]> attrs in
  let attrs := <["y" := 0]> attrs in
  let attrs := <["width" := num 60]> attrs in
  let attrs := <["height" := num 100]> attrs in
  let attrs := <["x1" := attrs !!! "x" - attrs !!! "width" / num 2]> attrs in
  let attrs := <["y1" := attrs !!! "y" - attrs !!! "height" / num 2]> attrs in
  let attrs := <["x2" := attrs !!! "x" + attrs !!! "width" / num 2]> attrs in
  let attrs := <["y2" := attrs !!! "y" + attrs !!! "height" / num 2]> attrs in
  let attrs := <["ix1" := - attrs !!! "width" / num 2]> attrs in
  let attrs := <["iy1" := - attrs !!! "height" / num 2]> attrs in
  let attrs := <["ix2" := attrs !!! "width" / num 2]> attrs in
  let attrs := <["iy2" := attrs !!! "height" / num 2]> attrs in
  let attrs := <["icx" := 0]> attrs in
  let attrs := <["icy" := 0]> attrs in
  {| attributes := attrs; marks := marks state |}.

(** [buildIntrinsicConstraints]: the array destructuring of the result of
    [solver.attrs] binds the i-th name to the i-th handle; the handle of
    the first mark is fetched while the arguments of the ninth (and tenth)
    [addLinear] call are evaluated, hence before that call. *)
Definition buildIntrinsicConstraints (state : GlyphState) : M unit :=
  let* vs := attrs OGlyph (attributes state)
    [ "x1"; "y1"; "x2"; "y2"; "x"; "y"; "width"; "height";
      "ix1"; "iy1"; "ix2"; "iy2"; "icx"; "icy" ] in
  let x1 := vs !!! 0%nat in
  let y1 := vs !!! 1%nat in
  let x2 := vs !!! 2%nat in
  let y2 := vs !!! 3%nat in
  let x := vs !!! 4%nat in
  let y := vs !!! 5%nat in
  let width := vs !!! 6%nat in
  let height := vs !!! 7%nat in
  let ix1 := vs !!! 8%nat in
  let iy1 := vs !!! 9%nat in
  let ix2 := vs !!! 10%nat in
  let iy2 := vs !!! 11%nat in
  let icx := vs !!! 12%nat in
  let icy := vs !!! 13%nat in
  addLinear HARD 0 [(1, x2); (-1, x1)] [(1, width)] ;;
  addLinear HARD 0 [(1, y2); (-1, y1)] [(1, height)] ;;
  addLinear HARD 0 [(1, ix2); (-1, ix1)] [(1, width)] ;;
  addLinear HARD 0 [(1, iy2); (-1, iy1)] [(1, height)] ;;
  addLinear HARD 0 [(1, ix1); (1, ix2)] [] ;;
  addLinear HARD 0 [(1, iy1); (1, iy2)] [] ;;
  addLinear HARD 0 [(1, icx)] [] ;;
  addLinear HARD 0 [(1, icy)] [] ;;
  let* mx :=
    (let* m0 := lift (mark_attributes_at (marks state) 0) in
     attr (OMark 0) m0 "x") in
  addLinear HARD 0 [(1, x)] [(num 0.5, x2); (num 0.5, x1); (1, mx)] ;;
  let* my :=
    (let* m0 := lift (mark_attributes_at (marks state) 0) in
     attr (OMark 0) m0 "y") in
  addLinear HARD 0 [(1, y)] [(num 0.5, y2); (num 0.5, y1); (1, my)].

Definition getAlignmentGuides (state : GlyphState)
  : list SnappingGuides.Axis :=
  let attrs := attributes state in
  [ SnappingGuides.mkAxis "x" (attrs !! "ix1") "ix1" true;
    SnappingGuides.mkAxis "x" (attrs !! "ix2") "ix2" true;
    SnappingGuides.mkAxis "x" (attrs !! "icx") "icx" true;
    SnappingGuides.mkAxis "y" (attrs !! "iy1") "iy1" true;
    SnappingGuides.mkAxis "y" (attrs !! "iy2") "iy2" true;
    SnappingGuides.mkAxis "y" (attrs !! "icy") "icy" true ].

Definition getHandles (state : GlyphState) : list Handles.Line :=
  let attrs := attributes state in
  let ix1 := attrs !! "ix1" in
  let iy1 := attrs !! "iy1" in
  let ix2 := attrs !! "ix2" in
  let iy2 := attrs !! "iy2" in
  let inf := (num (-10000), num 10000) in
  [ Handles.mkLine "line" "x" [Handles.mkAction "attribute" "ix1"] ix1 inf;
    Handles.mkLine "line" "x" [Handles.mkAction "attribute" "ix2"] ix2 inf;
    Handles.mkLine "line" "y" [Handles.mkAction "attribute" "iy1"] iy1 inf;
    Handles.mkLine "line" "y" [Handles.mkAction "attribute" "iy2"] iy2 inf ].

End RectangleGlyph.

(** ** Meaning of a solve session *)

(** A valuation gives every variable handle a value. *)
Definition Valuation : Type := VariableHandle → number.

Definition sum_terms (ρ : Valuation) (ts : list Term) : number :=
  foldr (λ t acc, t.1 * ρ t.2 + acc) 0 ts.

(** [Σ lhs = Σ rhs + constant]. *)
Definition holds (ρ : Valuation) (c : Linear) : Prop :=
  sum_terms ρ (lhs c) = sum_terms ρ (rhs c) + constant c.

#[global] Instance holds_dec ρ c : Decision (holds ρ c).
Proof. unfold holds. apply _. Defined.

Definition residual (ρ : Valuation) (c : Linear) : number :=
  sum_terms ρ (lhs c) - (sum_terms ρ (rhs c) + constant c).

Definition tier (t : ConstraintStrength) (s : ConstraintSolver)
  : list Linear :=
  filter (λ c, strength c = t) (constraints s).

Definition satisfies_hard (ρ : Valuation) (s : ConstraintSolver) : Prop :=
  Forall (holds ρ) (tier HARD s).

#[global] Instance satisfies_hard_dec ρ s : Decision (satisfies_hard ρ s).
Proof. unfold satisfies_hard. apply _. Defined.

Definition sq (x : number) : number := x * x.

Definition sum_sq (xs : list number) : number :=
  foldr (λ x acc, sq x + acc) 0 xs.

(** Squared violation of the soft constraints of one tier. *)
Definition penalty (t : ConstraintStrength) (s : ConstraintSolver)
    (ρ : Valuation) : number :=
  sum_sq (residual ρ <$> tier t s).

(** Offsets of the seeded variables of [s] from their seeds. *)
Definition offsets (s : ConstraintSolver) (ρ : Valuation) : list number :=
  omap (λ vq, (λ q, ρ vq.1 - q) <$> vq.2) (variables s).

(** Squared distance of a valuation from the seeds. *)
Definition deviation (s : ConstraintSolver) (ρ : Valuation) : number :=
  sum_sq (offsets s ρ).

(** The quantities a solution minimises, in priority order: the soft
    tiers from strongest to weakest, then the distance from the starting
    guess. *)
Definition soft_objective (s : ConstraintSolver) (ρ : Valuation)
  : list number :=
  [ penalty STRONG s ρ; penalty MEDIUM s ρ; penalty WEAK s ρ ].

Definition objective (s : ConstraintSolver) (ρ : Valuation) : list number :=
  soft_objective s ρ ++ [deviation s ρ].

Fixpoint lex_le (a b : list number) : Prop :=
  match a, b with
  | x :: a', y :: b' => x < y ∨ (x = y ∧ lex_le a' b')
  | _, _ => True
  end.

(** Modelled from the spec: the solver engine is not part of the sources
    at hand.  A valuation solves a session when it satisfies every HARD
    constraint exactly and, among the valuations that do, is best for the
    soft tiers in descending priority (least squares within a tier) and
    then nearest to the values the variables were seeded with. *)
Definition Solution (s : ConstraintSolver) (ρ : Valuation) : Prop :=
  satisfies_hard ρ s ∧
  ∀ ρ', satisfies_hard ρ' s → lex_le (objective s ρ) (objective s ρ').

Inductive SolveResult : Type :=
  | Solved (ρ : Valuation)
  | Failed (e : Exception).

(** Modelled from the spec: [solve()] either computes a solution or fails
    with [Infeasible], the latter when no valuation meets the HARD
    constraints. *)
Definition solve_spec (s : ConstraintSolver) (r : SolveResult) : Prop :=
  match r with
  | Solved ρ => Solution s ρ
  | Failed e => e = Infeasible ∧ ∀ ρ, ¬ satisfies_hard ρ s
  end.

(** ** The solve orchestrator *)

(** The attribute map a handle's owner denotes in a glyph state. *)
Definition owner_attributes (state : GlyphState) (o : Owner)
  : Completion AttributeMap :=
  match o with
  | OGlyph => Normal (attributes state)
  | OMark i => mark_attributes_at (marks state) i
  end.

(** Current value of the attribute a handle names. *)
Definition read_var (state : GlyphState) (v : VariableHandle)
  : option number :=
  match var_owner v with
  | OGlyph => attributes state !! var_name v
  | OMark i => m ← marks state !! i; mark_attributes m !! var_name v
  end.

(** The valuation a glyph state denotes (unset attributes read as 0). *)
Definition valuation_of (state : GlyphState) : Valuation :=
  λ v, default 0 (read_var state v).

Definition write_var (v : VariableHandle) (q : number) (state : GlyphState)
  : GlyphState :=
  match var_owner v with
  | OGlyph =>
      {| attributes := <[var_name v := q]> (attributes state);
         marks := marks state |}
  | OMark i =>
      {| attributes := attributes state;
         marks := alter (λ m, mkMarkState
                                (<[var_name v := q]> (mark_attributes m)))
                        i (marks state) |}
  end.

(** Modelled from the spec: the variables of the terms of an external
    constraint are allocated from the attribute maps that own them. *)
Fixpoint registerTerms (state : GlyphState) (ts : list Term) : M unit :=
  match ts with
  | [] => ret tt
  | t :: rest =>
      let* m := lift (owner_attributes state (var_owner t.2)) in
      attr (var_owner t.2) m (var_name t.2) ;;
      registerTerms state rest
  end.

(** Modelled from the spec: an external constraint is registered at its
    declared strength, after the variables of its terms. *)
Definition addExternal (state : GlyphState) (c : Linear) : M unit :=
  registerTerms state (lhs c) ;;
  registerTerms state (rhs c) ;;
  addLinear (strength c) (constant c) (lhs c) (rhs c).

Fixpoint addExternals (state : GlyphState) (cs : list Linear) : M unit :=
  match cs with
  | [] => ret tt
  | c :: rest => addExternal state c ;; addExternals state rest
  end.

(** Modelled from the spec: one pass of constraint collection, into a new
    session: the instance's intrinsic constraints, then the external ones. *)
Definition collect (external : list Linear) (state : GlyphState)
  : ConstraintSolver * Completion unit :=
  (RectangleGlyph.buildIntrinsicConstraints state ;;
   addExternals state external) newSolver.

(** Modelled from the spec: copy every variable's value back into the
    attribute map that owns it. *)
Definition distribute (s : ConstraintSolver) (ρ : Valuation)
    (state : GlyphState) : GlyphState :=
  foldl (λ st v, write_var v (ρ v) st) state (variables s).*1.

(** Modelled from the spec: all-or-nothing application of a solve result. *)
Definition applyResult (s : ConstraintSolver) (r : SolveResult)
    (state : GlyphState) : GlyphState * option Exception :=
  match r with
  | Solved ρ => (distribute s ρ state, None)
  | Failed e => (state, Some e)
  end.

(** Modelled from the spec: one edit cycle.  [solveCycle external st out]
    holds when [out] is a possible outcome (new state, reported failure)
    of collecting, solving and applying on [st]. *)
Definition solveCycle (external : list Linear) (state : GlyphState)
    (out : GlyphState * option Exception) : Prop :=
  match collect external state with
  | (s, Normal _) => ∃ r, solve_spec s r ∧ out = applyResult s r state
  | (_, Throw e) => out = (state, Some e)
  end.

(** ** Names used in the statements below *)

(** Handles of the glyph's own attributes and of its first mark's. *)
Definition gv (name : string) : VariableHandle := mkVar OGlyph name.
Definition mv0 (name : string) : VariableHandle := mkVar (OMark 0) name.

(** The schema of the class as a set of names. *)
Definition schema : gset string := list_to_set RectangleGlyph.attributeNames.

(** An attribute map is schema-complete when its keys are exactly the
    declared names. *)
Definition schema_complete (state : GlyphState) : Prop :=
  dom (attributes state) = schema.

(** The ten registrations of [buildIntrinsicConstraints], in order. *)
Definition intrinsic : list Linear :=
  [ mkLinear HARD 0 [(1, gv "x2"); (-1, gv "x1")] [(1, gv "width")];
    mkLinear HARD 0 [(1, gv "y2"); (-1, gv "y1")] [(1, gv "height")];
    mkLinear HARD 0 [(1, gv "ix2"); (-1, gv "ix1")] [(1, gv "width")];
    mkLinear HARD 0 [(1, gv "iy2"); (-1, gv "iy1")] [(1, gv "height")];
    mkLinear HARD 0 [(1, gv "ix1"); (1, gv "ix2")] [];
    mkLinear HARD 0 [(1, gv "iy1"); (1, gv "iy2")] [];
    mkLinear HARD 0 [(1, gv "icx")] [];
    mkLinear HARD 0 [(1, gv "icy")] [];
    mkLinear HARD 0 [(1, gv "x")]
      [(num 0.5, gv "x2"); (num 0.5, gv "x1"); (1, mv0 "x")];
    mkLinear HARD 0 [(1, gv "y")]
      [(num 0.5, gv "y2"); (num 0.5, gv "y1"); (1, mv0 "y")] ].

(** The equations of the rectangle glyph, read on a valuation, in the
    order in which the glyph registers them. *)
Definition rectangle_equations : list (Valuation → Prop) :=
  [ λ ρ, ρ (gv "x2") - ρ (gv "x1") = ρ (gv "width");
    λ ρ, ρ (gv "y2") - ρ (gv "y1") = ρ (gv "height");
    λ ρ, ρ (gv "ix2") - ρ (gv "ix1") = ρ (gv "width");
    λ ρ, ρ (gv "iy2") - ρ (gv "iy1") = ρ (gv "height");
    λ ρ, ρ (gv "ix1") + ρ (gv "ix2") = 0;
    λ ρ, ρ (gv "iy1") + ρ (gv "iy2") = 0;
    λ ρ, ρ (gv "icx") = 0;
    λ ρ, ρ (gv "icy") = 0;
    λ ρ, ρ (gv "x")
         = num 0.5 * ρ (gv "x1") + num 0.5 * ρ (gv "x2") + ρ (mv0 "x");
    λ ρ, ρ (gv "y")
         = num 0.5 * ρ (gv "y1") + num 0.5 * ρ (gv "y2") + ρ (mv0 "y") ].

Definition satisfies_equations (ρ : Valuation) : Prop :=
  Forall (λ equation, equation ρ) rectangle_equations.

(** The values [initializeState] leaves in the attribute map, on top of
    whatever the map held before. *)
Definition defaultAttributes (prior : AttributeMap) : AttributeMap :=
  <["icy" := 0]> (<["icx" := 0]> (
  <["iy2" := num 50]> (<["ix2" := num 30]> (
  <["iy1" := num (-50)]> (<["ix1" := num (-30)]> (
  <["y2" := num 50]> (<["x2" := num 30]> (
  <["y1" := num (-50)]> (<["x1" := num (-30)]> (
  <["height" := num 100]> (<["width" := num 60]> (
  <["y" := 0]> (<["x" := 0]> prior))))))))))))).

(** The variables the glyph asks for: its fourteen attributes, then x and
    y of its first mark, each with the current value as seed. *)
Definition glyph_variables (attrs : AttributeMap)
  : list (VariableHandle * option number) :=
  (λ name, (gv name, attrs !! name)) <$> RectangleGlyph.attributeNames.

Definition intrinsic_variables (attrs mark0 : AttributeMap)
  : list (VariableHandle * option number) :=
  glyph_variables attrs ++ [ (mv0 "x", mark0 !! "x"); (mv0 "y", mark0 !! "y") ].

(** Allocation of a sequence of variables on top of those present. *)
Definition allocate_all (new old : list (VariableHandle * option number))
  : list (VariableHandle * option number) :=
  foldl (λ vs vq, if bool_decide (vq.1 ∈ vs.*1) then vs else vs ++ [vq])
        old new.

Definition register_all (new old : list Linear) : list Linear :=
  foldl (λ cs c, cs ++ [c]) old new.

(** A handle's owner exists in a glyph state. *)
Definition owner_ok (state : GlyphState) (o : Owner) : Prop :=
  match o with
  | OGlyph => True
  | OMark i => (i < length (marks state))%nat
  end.

(** Two sessions with the same variables and the same constraints, seeds
    apart. *)
Definition similar (s s' : ConstraintSolver) : Prop :=
  (variables s).*1 = (variables s').*1 ∧ constraints s = constraints s'.

(** Every variable of the session is seeded with its current value in the
    state, and its owner exists there. *)
Definition coherent (state : GlyphState) (s : ConstraintSolver) : Prop :=
  ∀ v q, (v, q) ∈ variables s →
         q = read_var state v ∧ owner_ok state (var_owner v).

(** A valuation sits at the seeds of a session when it gives every seeded
    variable its seed. *)
Definition seeded_at (s : ConstraintSolver) (ρ : Valuation) : Prop :=
  ∀ v q, (v, Some q) ∈ variables s → ρ v = q.

(** The HARD equation [x = a]. *)
Definition pin (x : VariableHandle) (a : number) : Linear :=
  mkLinear HARD a [(1, x)] [].

(** A HARD constraint that, on its own, forces variable [x] to value [a]. *)
Definition forces (c : Linear) (x : VariableHandle) (a : number) : Prop :=
  strength c = HARD ∧ ∀ ρ, holds ρ c → ρ x = a.

(** Write-back of a valuation over a list of handles. *)
Definition write_all (ρ : Valuation) (vs : list VariableHandle)
    (st : GlyphState) : GlyphState :=
  foldl (λ st v, write_var v (ρ v) st) st vs.

(** The session a glyph with a first mark starts from, before the
    external constraints. *)
Definition intrinsic_session (st : GlyphState) (m : MarkState)
  : ConstraintSolver :=
  {| variables := intrinsic_variables (attributes st) (mark_attributes m);
     constraints := intrinsic |}.

(** A handle conforms to the schema when, if it names an attribute of the
    glyph itself, that attribute is declared. *)
Definition schema_handle (v : VariableHandle) : Prop :=
  var_owner v = OGlyph → var_name v ∈ RectangleGlyph.attributeNames.

(** External constraints conform when all their handles do. *)
Definition conforming (ext : list Linear) : Prop :=
  ∀ c t, c ∈ ext → t ∈ lhs c ++ rhs c → schema_handle t.2.

(** ** [Controls.WidgetManager] *)

Module Controls.

(** The two factory methods of the widget manager the rectangle glyph
    calls; what a widget is stays with the manager. *)
Record WidgetManager (Widget : Type) : Type := mkWidgetManager {
  sectionHeader : string → Widget;
  mappingEditorTOFIX : string → Widget
}.
Arguments sectionHeader {Widget} _ _.
Arguments mappingEditorTOFIX {Widget} _ _.

End Controls.

(** [RectangleGlyph.getAttributePanelWidgets]. *)
Definition getAttributePanelWidgets {Widget : Type}
    (manager : Controls.WidgetManager Widget) : list Widget :=
  [ Controls.sectionHeader manager "Dimensions";
    Controls.mappingEditorTOFIX manager "width";
    Controls.mappingEditorTOFIX manager "height" ].

(** The declared mode of an attribute, if it is declared. *)
Definition declared_mode (k : string) : option string :=
  mode <$> RectangleGlyph.attributeDescriptions !! k.

(** Every constraint of the session is over allocated variables. *)
Definition closed (s : ConstraintSolver) : Prop :=
  ∀ c t, c ∈ constraints s → t ∈ lhs c ++ rhs c → t.2 ∈ (variables s).*1.

(** The handles a constraint mentions. *)
Definition handles_of (c : Linear) : list VariableHandle :=
  (lhs c ++ rhs c).*2.

(** The rectangle equations solved for the dependent variables: the
    intrinsic frame in terms of width and height, the bounding box in terms
    of the centre, the size and the first mark's position. *)
Definition solved_form (ρ : Valuation) : Prop :=
  ρ (gv "ix1") = - (num 0.5 * ρ (gv "width")) ∧
  ρ (gv "ix2") = num 0.5 * ρ (gv "width") ∧
  ρ (gv "iy1") = - (num 0.5 * ρ (gv "height")) ∧
  ρ (gv "iy2") = num 0.5 * ρ (gv "height") ∧
  ρ (gv "icx") = 0 ∧
  ρ (gv "icy") = 0 ∧
  ρ (gv "x1") = ρ (gv "x") - ρ (mv0 "x") - num 0.5 * ρ (gv "width") ∧
  ρ (gv "x2") = ρ (gv "x") - ρ (mv0 "x") + num 0.5 * ρ (gv "width") ∧
  ρ (gv "y1") = ρ (gv "y") - ρ (mv0 "y") - num 0.5 * ρ (gv "height") ∧
  ρ (gv "y2") = ρ (gv "y") - ρ (mv0 "y") + num 0.5 * ρ (gv "height").

(** The glyph state in solved form for a centre, a size and a first-mark
    position. *)
Definition solved_state (x y w h mx my : number) : GlyphState :=
  {| attributes :=
       <["x" := x]> $ <["y" := y]> $ <["width" := w]> $ <["height" := h]> $
       <["x1" := x - mx - num 0.5 * w]> $ <["x2" := x - mx + num 0.5 * w]> $
       <["y1" := y - my - num 0.5 * h]> $ <["y2" := y - my + num 0.5 * h]> $
       <["ix1" := - (num 0.5 * w)]> $ <["ix2" := num 0.5 * w]> $
       <["iy1" := - (num 0.5 * h)]> $ <["iy2" := num 0.5 * h]> $
       <["icx" := 0]> $ <["icy" := 0]> ∅;
     marks := [ mkMarkState {[ "x" := mx; "y" := my ]} ] |}.

(** Write of a glyph attribute, [this.state.attributes[name] = v]. *)
Definition set_attribute (name : string) (v : number) (state : GlyphState)
  : GlyphState :=
  {| attributes := <[name := v]> (attributes state); marks := marks state |}.

#[global] Instance Action_eq_dec : EqDecision Handles.Action.
Proof. solve_decision. Defined.

(** * [MainView]: the application shell

    The component keeps a view configuration and four flags, one per pane
    that can be taken out of its column; [render] lays the panels out from
    these.  Elements are kept as the JSX writes them: a component or tag
    name, its props in order, its children in order; [cond && e] leaves
    [false] and [cond ? e : null] leaves [null] where the element is not
    produced, and an array written among the children stays an array. *)

Module MainView.

Inductive Side : Type :=
  | Left
  | Right.

Inductive ToolbarSide : Type :=
  | Top
  | ToolbarRight
  | ToolbarLeft.

#[global] Instance Side_eq_dec : EqDecision Side.
Proof. solve_decision. Defined.

#[global] Instance ToolbarSide_eq_dec : EqDecision ToolbarSide.
Proof. solve_decision. Defined.

Record MainViewConfig : Type := mkConfig {
  ColumnsPosition : Side;
  EditorPanelsPosition : Side;
  ToolbarPosition : ToolbarSide;
  Name : option string
}.

(** What the component reads of the application store: the number of
    pending messages ([store.messageState.size]). *)
Record AppStore : Type := mkStore {
  messageState_size : nat
}.

Record MainViewProps : Type := mkProps {
  store : AppStore;
  viewConfiguration : option MainViewConfig
}.

Record MainViewState : Type := mkState {
  glyphViewMaximized : bool;
  layersViewMaximized : bool;
  attributeViewMaximized : bool;
  scaleViewMaximized : bool
}.

#[global] Instance MainViewState_eq_dec : EqDecision MainViewState.
Proof. solve_decision. Defined.

(** The argument of [setState]: the fields to overwrite. *)
Record StateUpdate : Type := mkUpdate {
  set_glyphViewMaximized : option bool;
  set_layersViewMaximized : option bool;
  set_attributeViewMaximized : option bool;
  set_scaleViewMaximized : option bool
}.

Definition noUpdate : StateUpdate := mkUpdate None None None None.

(** [this.setState(update)]: the given fields replace the current ones. *)
Definition setState (u : StateUpdate) (s : MainViewState) : MainViewState :=
  {| glyphViewMaximized :=
       default (glyphViewMaximized s) (set_glyphViewMaximized u);
     layersViewMaximized :=
       default (layersViewMaximized s) (set_layersViewMaximized u);
     attributeViewMaximized :=
       default (attributeViewMaximized s) (set_attributeViewMaximized u);
     scaleViewMaximized :=
       default (scaleViewMaximized s) (set_scaleViewMaximized u) |}.

(** The component instance. *)
Record Component : Type := mkComponent {
  props : MainViewProps;
  config : MainViewConfig;
  state : MainViewState
}.

(** A listener registration [store.addListener(event, callback)]: the
    event is the store's constant [AppStore.EVENT_GRAPHICS], the callback
    forces an update of the component. *)
Inductive Event : Type :=
  | EVENT_GRAPHICS.

Inductive Callback : Type :=
  | ForceUpdate.

(** The constructor, with the listener it registers on the store. *)
Definition constructor (p : MainViewProps)
  : Component * list (Event * Callback) :=
  let viewConfiguration :=
    match viewConfiguration p with
    | None => {| ColumnsPosition := Left;
                 EditorPanelsPosition := Left;
                 ToolbarPosition := Top;
                 Name := None |}
    | Some c => c
    end in
  ({| props := p;
      config := viewConfiguration;
      state := {| glyphViewMaximized := false;
                  layersViewMaximized := false;
                  attributeViewMaximized := false;
                  scaleViewMaximized := false |} |},
   [(EVENT_GRAPHICS, ForceUpdate)]).

Definition getChildContext (c : Component) : AppStore := store (props c).

(** Values of props. *)
Inductive PropValue : Type :=
  | PString (s : string)
  | PBool (b : bool)
  | PNumber (n : Z)
  | PUndefined
  | PStore (s : AppStore)
  | PGlobal (name : string)
  | PSetState (u : StateUpdate)
  | PPreventDefault
  | PSetRef (field : string)
  | PStyle (entries : list (string * option string)).

#[local] Unset Elimination Schemes.
Inductive Node : Type :=
  | Element (tag : string) (attrs : list (string * PropValue))
            (children : list Node)
  | NArray (items : list Node)
  | NFalse
  | NNull.
#[local] Set Elimination Schemes.

(** [cond && e]. *)
Definition and_then (cond : bool) (e : Node) : Node :=
  if cond then e else NFalse.

Definition classed (tag className : string) (children : list Node) : Node :=
  Element tag [("className", PString className)] children.

Definition ErrorBoundary (child : Node) : Node :=
  Element "ErrorBoundary" [] [child].

Definition toolBarCreator (layout : string) : Node :=
  classed "div" ("charticulator__panel-editor-toolbar-" +:+ layout)
    [ Element "Toolbar" [("layout", PString layout)] [] ].

Definition datasetPanel (c : Component) : Node :=
  classed "div" "charticulator__panel charticulator__panel-dataset"
    [ Element "MinimizablePanelView" []
        [ Element "MinimizablePane"
            [ ("title", PString "Dataset"); ("scroll", PBool true);
              ("hideHeader", PBool true) ]
            [ ErrorBoundary
                (Element "DatasetView" [("store", PStore (store (props c)))]
                         []) ];
          if scaleViewMaximized (state c) then NNull
          else
            Element "MinimizablePane"
              [ ("title", PString "Scales"); ("scroll", PBool true);
                ("onMaximize",
                 PSetState (mkUpdate None None None (Some true))) ]
              [ ErrorBoundary
                  (Element "ScalesPanel"
                           [("store", PStore (store (props c)))] []) ] ] ].

Definition editorPanels (c : Component) : Node :=
  Element "div"
    [ ("className",
       PString "charticulator__panel-editor-panel charticulator__panel-editor-panel-panes");
      ("style",
       PStyle [ ("display",
                 if glyphViewMaximized (state c)
                    && attributeViewMaximized (state c)
                    && layersViewMaximized (state c)
                 then Some "none" else None) ]) ]
    [ Element "MinimizablePanelView" []
        [ if glyphViewMaximized (state c) then NNull
          else
            Element "MinimizablePane"
              [ ("title", PString "Glyph"); ("scroll", PBool false);
                ("onMaximize",
                 PSetState (mkUpdate (Some true) None None None)) ]
              [ ErrorBoundary
                  (Element "MarkEditorView" [("height", PNumber 300)] []) ];
          if layersViewMaximized (state c) then NNull
          else
            Element "MinimizablePane"
              [ ("title", PString "Layers"); ("scroll", PBool true);
                ("maxHeight", PNumber 200);
                ("onMaximize",
                 PSetState (mkUpdate None (Some true) None None)) ]
              [ ErrorBoundary (Element "ObjectListEditor" [] []) ];
          if attributeViewMaximized (state c) then NNull
          else
            Element "MinimizablePane"
              [ ("title", PString "Attributes"); ("scroll", PBool true);
                ("onMaximize",
                 PSetState (mkUpdate None None (Some true) None)) ]
              [ ErrorBoundary
                  (Element "AttributePanel"
                           [("store", PStore (store (props c)))] []) ] ] ].

Definition chartPanel (c : Component) : Node :=
  classed "div"
    "charticulator__panel-editor-panel charticulator__panel-editor-panel-chart"
    [ ErrorBoundary
        (Element "ChartEditorView" [("store", PStore (store (props c)))]
                 []) ].

Definition render (c : Component) : Node :=
  Element "div"
    [ ("className", PString "charticulator__application");
      ("onDragOver", PPreventDefault); ("onDrop", PPreventDefault) ]
    [ Element "MenuBar"
        [ ("name", from_option PString PUndefined (Name (config c)));
          ("ref", PSetRef "refMenuBar") ] [];
      classed "section" "charticulator__panel-container"
        [ NArray
            [ and_then (bool_decide (ColumnsPosition (config c) = Left))
                       (datasetPanel c);
              classed "div" "charticulator__panel charticulator__panel-editor"
                [ and_then (bool_decide (ToolbarPosition (config c) = Top))
                           (toolBarCreator "horizontal");
                  classed "div" "charticulator__panel-editor-panel-container"
                    [ NArray
                        [ and_then
                            (bool_decide
                               (EditorPanelsPosition (config c) = Left))
                            (editorPanels c);
                          and_then
                            (bool_decide
                               (ToolbarPosition (config c) = ToolbarLeft))
                            (toolBarCreator "vertical");
                          chartPanel c;
                          and_then
                            (bool_decide
                               (ToolbarPosition (config c) = ToolbarRight))
                            (toolBarCreator "vertical");
                          and_then
                            (bool_decide
                               (EditorPanelsPosition (config c) = Right))
                            (editorPanels c) ] ] ];
              and_then (bool_decide (ColumnsPosition (config c) = Right))
                       (datasetPanel c) ] ];
      classed "div" "charticulator__floating-panels"
        [ if glyphViewMaximized (state c) then
            Element "FloatingPanel"
              [ ("peerGroup", PString "panels"); ("title", PString "Glyph");
                ("onClose",
                 PSetState (mkUpdate (Some false) None None None)) ]
              [ ErrorBoundary (Element "MarkEditorView" [] []) ]
          else NNull;
          if layersViewMaximized (state c) then
            Element "FloatingPanel"
              [ ("scroll", PBool true); ("peerGroup", PString "panels");
                ("title", PString "Layers");
                ("onClose",
                 PSetState (mkUpdate None (Some false) None None)) ]
              [ ErrorBoundary (Element "ObjectListEditor" [] []) ]
          else NNull;
          if attributeViewMaximized (state c) then
            Element "FloatingPanel"
              [ ("scroll", PBool true); ("peerGroup", PString "panels");
                ("title", PString "Attributes");
                ("onClose",
                 PSetState (mkUpdate None None (Some false) None)) ]
              [ ErrorBoundary
                  (Element "AttributePanel"
                           [("store", PStore (store (props c)))] []) ]
          else NNull;
          if scaleViewMaximized (state c) then
            Element "FloatingPanel"
              [ ("scroll", PBool true); ("peerGroup", PString "panels");
                ("title", PString "Scales");
                ("onClose",
                 PSetState (mkUpdate None None None (Some false))) ]
              [ ErrorBoundary
                  (Element "ScalesPanel"
                           [("store", PStore (store (props c)))] []) ]
          else NNull ];
      Element "PopupContainer"
        [("controller", PGlobal "popupController")] [];
      match messageState_size (store (props c)) with
      | O => NNull
      | S _ =>
          classed "div" "charticulator__floating-panels_errors"
            [ Element "FloatingPanel"
                [ ("floatInCenter", PBool true); ("scroll", PBool true);
                  ("peerGroup", PString "messages");
                  ("title", PString "Errors");
                  ("closeButtonIcon", PString "general/cross");
                  ("height", PNumber 200); ("width", PNumber 350) ]
                [ ErrorBoundary
                    (Element "MessagePanel"
                             [("store", PStore (store (props c)))] []) ] ]
      end;
      Element "DragStateView"
        [("controller", PGlobal "dragController")] [] ].

(** The component after a handler has called [setState]. *)
Definition withState (u : StateUpdate) (c : Component) : Component :=
  {| props := props c; config := config c; state := setState u (state c) |}.

(** ** Reading a rendered tree *)

(** The elements of a tree, parents before children, in document order. *)
Fixpoint elements (n : Node) : list Node :=
  let fix all (l : list Node) : list Node :=
    match l with
    | [] => []
    | c :: rest => elements c ++ all rest
    end in
  match n with
  | Element _ _ children => n :: all children
  | NArray items => all items
  | NFalse | NNull => []
  end.

Definition tag_of (n : Node) : option string :=
  match n with Element t _ _ => Some t | _ => None end.

(** The prop of the given name, as written on the element. *)
Definition prop (name : string) (n : Node) : option PropValue :=
  match n with
  | Element _ attrs _ =>
      (fix find (l : list (string * PropValue)) : option PropValue :=
         match l with
         | [] => None
         | (k, v) :: rest => if String.eqb k name then Some v else find rest
         end) attrs
  | _ => None
  end.

Definition has_tag (tag : string) (n : Node) : bool :=
  match tag_of n with
  | Some t => String.eqb t tag
  | None => false
  end.

Definition has_string_prop (name value : string) (n : Node) : bool :=
  match prop name n with
  | Some (PString s) => String.eqb s value
  | _ => false
  end.

(** The elements with a given tag and title, in document order. *)
Definition titled (tag title : string) (n : Node) : list Node :=
  filter (λ e, has_tag tag e && has_string_prop "title" title e)
         (elements n).

(** Position of the first element of a class in document order. *)
Definition position_of_class (className : string) (n : Node) : option nat :=
  fst <$> list_find (λ e, has_string_prop "className" className e)
                    (elements n).

(** The four panes that can leave their column. *)
Inductive Pane : Type :=
  | Glyph
  | Layers
  | Attributes
  | Scales.

#[global] Instance Pane_eq_dec : EqDecision Pane.
Proof. solve_decision. Defined.

Definition title (p : Pane) : string :=
  match p with
  | Glyph => "Glyph"
  | Layers => "Layers"
  | Attributes => "Attributes"
  | Scales => "Scales"
  end.

Definition maximized (p : Pane) (s : MainViewState) : bool :=
  match p with
  | Glyph => glyphViewMaximized s
  | Layers => layersViewMaximized s
  | Attributes => attributeViewMaximized s
  | Scales => scaleViewMaximized s
  end.

(** The [setState] argument of a handler prop of the first element with
    the given tag and title. *)
Definition handler (tag name : string) (p : Pane) (c : Component)
  : option StateUpdate :=
  match titled tag (title p) (render c) with
  | e :: _ =>
      match prop name e with
      | Some (PSetState u) => Some u
      | _ => None
      end
  | [] => None
  end.

Definition onMaximize (p : Pane) (c : Component) : option StateUpdate :=
  handler "MinimizablePane" "onMaximize" p c.

Definition onClose (p : Pane) (c : Component) : option StateUpdate :=
  handler "FloatingPanel" "onClose" p c.

End MainView.

(** * Properties *)

(** ** Arithmetic on [number] *)

Ltac num_compute := apply Qc_is_canon; vm_compute; reflexivity.

Lemma number_sub_0 (a b : number) : a - b = 0 → a = b.
Proof. intros H. replace a with ((a - b) + b) by ring. rewrite H. ring. Qed.

Lemma number_eq_iff (a b c d : number) :
  a - b = c - d → (a = b ↔ c = d).
Proof.
  intros H; split; intros E; apply number_sub_0.
  - rewrite <- H, E. ring.
  - rewrite H, E. ring.
Qed.

(** ** The solver monad *)

Lemma allocate_fresh v q s :
  v ∉ (variables s).*1 →
  variables (allocate v q s) = variables s ++ [(v, q)].
Proof.
  intros H. unfold allocate, is_registered. cbn.
  by rewrite bool_decide_eq_false_2.
Qed.

Lemma allocate_known v q s :
  v ∈ (variables s).*1 → variables (allocate v q s) = variables s.
Proof.
  intros H. unfold allocate, is_registered. cbn.
  by rewrite bool_decide_eq_true_2.
Qed.

(** ** [initializeState] *)

Lemma read_hit (k : string) (v : number) (m : AttributeMap) :
  (<[k := v]> m) !!! k = v.
Proof. apply lookup_total_insert_eq. Qed.

Lemma read_skip (k k' : string) (v : number) (m : AttributeMap) :
  bool_decide (k' = k) = false → (<[k' := v]> m) !!! k = m !!! k.
Proof.
  intros H. apply lookup_total_insert_ne. by apply bool_decide_eq_false in H.
Qed.

Lemma initializeState_attributes st :
  attributes (RectangleGlyph.initializeState st)
  = defaultAttributes (attributes st).
Proof.
  unfold RectangleGlyph.initializeState, defaultAttributes. cbn [attributes].
  repeat (rewrite read_hit || rewrite read_skip by reflexivity).
  repeat f_equal; num_compute.
Qed.

Lemma initializeState_marks st :
  marks (RectangleGlyph.initializeState st) = marks st.
Proof. reflexivity. Qed.

Lemma defaultAttributes_dom prior :
  dom (defaultAttributes prior) = schema ∪ dom prior.
Proof.
  unfold defaultAttributes, schema, RectangleGlyph.attributeNames.
  rewrite !dom_insert_L. cbn [list_to_set].
  apply set_eq; intros k.
  rewrite !elem_of_union, !elem_of_singleton, elem_of_empty. tauto.
Qed.

Lemma elem_of_schema name :
  name ∈ schema ↔ name ∈ RectangleGlyph.attributeNames.
Proof. unfold schema. apply elem_of_list_to_set. Qed.

Lemma defaultAttributes_lookup prior :
  let attrs := defaultAttributes prior in
  attrs !! "x" = Some 0 ∧ attrs !! "y" = Some 0 ∧
  attrs !! "width" = Some (num 60) ∧ attrs !! "height" = Some (num 100) ∧
  attrs !! "x1" = Some (num (-30)) ∧ attrs !! "x2" = Some (num 30) ∧
  attrs !! "y1" = Some (num (-50)) ∧ attrs !! "y2" = Some (num 50) ∧
  attrs !! "ix1" = Some (num (-30)) ∧ attrs !! "ix2" = Some (num 30) ∧
  attrs !! "iy1" = Some (num (-50)) ∧ attrs !! "iy2" = Some (num 50) ∧
  attrs !! "icx" = Some 0 ∧ attrs !! "icy" = Some 0.
Proof.
  cbv zeta. unfold defaultAttributes. repeat split; by simplify_map_eq.
Qed.

(** C2: whatever the attribute map held before, [initializeState] leaves
    x = 0, y = 0, width = 60, height = 100, x1 = -30, x2 = 30, y1 = -50,
    y2 = 50, ix1 = -30, ix2 = 30, iy1 = -50, iy2 = 50, icx = 0, icy = 0,
    and every declared attribute is defined afterwards; in particular on
    a fresh instance. *)
Theorem initializeState_defaults (st : GlyphState) :
  let attrs := attributes (RectangleGlyph.initializeState st) in
  attrs !! "x" = Some 0 ∧ attrs !! "y" = Some 0 ∧
  attrs !! "width" = Some (num 60) ∧ attrs !! "height" = Some (num 100) ∧
  attrs !! "x1" = Some (num (-30)) ∧ attrs !! "x2" = Some (num 30) ∧
  attrs !! "y1" = Some (num (-50)) ∧ attrs !! "y2" = Some (num 50) ∧
  attrs !! "ix1" = Some (num (-30)) ∧ attrs !! "ix2" = Some (num 30) ∧
  attrs !! "iy1" = Some (num (-50)) ∧ attrs !! "iy2" = Some (num 50) ∧
  attrs !! "icx" = Some 0 ∧ attrs !! "icy" = Some 0 ∧
  Forall (λ name, is_Some (attrs !! name)) RectangleGlyph.attributeNames.
Proof.
  cbv zeta. rewrite initializeState_attributes.
  destruct (defaultAttributes_lookup (attributes st))
    as (? & ? & ? & ? & ? & ? & ? & ? & ? & ? & ? & ? & ? & ?).
  repeat (split; [done|]).
  unfold RectangleGlyph.attributeNames.
  repeat (apply List.Forall_cons; [by eexists|]). apply List.Forall_nil.
Qed.

(** ** [buildIntrinsicConstraints] *)

Lemma register_all_app new old : register_all new old = old ++ new.
Proof.
  revert old. induction new as [|c new IH]; intros old; cbn.
  - by rewrite app_nil_r.
  - unfold register_all in IH. by rewrite IH, <- app_assoc.
Qed.

Lemma allocate_all_fresh new old :
  NoDup (old.*1 ++ new.*1) → allocate_all new old = old ++ new.
Proof.
  revert old. induction new as [|[v q] new IH]; intros old Hnd; cbn.
  - by rewrite app_nil_r.
  - cbn in Hnd. apply NoDup_app in Hnd as (Ho & Hdisj & Hn).
    rewrite bool_decide_eq_false_2.
    + fold (allocate_all new (old ++ [(v, q)])). rewrite IH.
      * by rewrite <- app_assoc.
      * rewrite fmap_app, <- app_assoc. cbn. apply NoDup_app.
        split; [done|]. split; [|done]. exact Hdisj.
    + intros Hv. apply (Hdisj v Hv). left.
Qed.

Lemma bind_addLinear {B} st c l r (k : unit → M B) V C :
  bind (addLinear st c l r) k (mkSolver V C)
  = k tt (mkSolver V (C ++ [mkLinear st c l r])).
Proof. reflexivity. Qed.

Lemma bind_attr {B} o map name (k : VariableHandle → M B) V C :
  bind (attr o map name) k (mkSolver V C)
  = k (mkVar o name)
      (mkSolver (allocate_all [(mkVar o name, map !! name)] V) C).
Proof. reflexivity. Qed.

Lemma bind_assoc {A B C} (m : M A) (f : A → M B) (g : B → M C) s :
  bind (bind m f) g s = bind m (λ a, bind (f a) g) s.
Proof. unfold bind. by destruct (m s) as [s' [a|e]]. Qed.

Lemma bind_lift_Normal {A B} (a : A) (k : A → M B) s :
  bind (lift (Normal a)) k s = k a s.
Proof. reflexivity. Qed.

Lemma bind_lift_Throw {A B} e (k : A → M B) s :
  bind (lift (Throw e)) k s = (s, Throw e).
Proof. reflexivity. Qed.

Lemma bind_ret {A B} (a : A) (k : A → M B) s : bind (ret a) k s = k a s.
Proof. reflexivity. Qed.

Lemma allocate_all_app new1 new2 old :
  allocate_all (new1 ++ new2) old = allocate_all new2 (allocate_all new1 old).
Proof. apply foldl_app. Qed.

Lemma bind_attrs {B} o map names (k : list VariableHandle → M B) V C :
  bind (attrs o map names) k (mkSolver V C)
  = k (mkVar o <$> names)
      (mkSolver
         (allocate_all ((λ name, (mkVar o name, map !! name)) <$> names) V)
         C).
Proof.
  revert k V. induction names as [|name names IH]; intros k V.
  - reflexivity.
  - cbn [attrs]. rewrite bind_assoc, bind_attr, bind_assoc, IH, bind_ret.
    reflexivity.
Qed.

Ltac run_build :=
  repeat first
    [ rewrite bind_addLinear | rewrite bind_assoc | rewrite bind_attr
    | rewrite bind_lift_Normal | rewrite bind_lift_Throw ].

Lemma build_run st m ms s0 :
  marks st = m :: ms →
  RectangleGlyph.buildIntrinsicConstraints st s0
  = ({| variables :=
          allocate_all
            (intrinsic_variables (attributes st) (mark_attributes m))
            (variables s0);
        constraints := register_all intrinsic (constraints s0) |},
     Normal tt).
Proof.
  intros Hm. destruct s0 as [V C].
  unfold RectangleGlyph.buildIntrinsicConstraints, mark_attributes_at.
  rewrite Hm, bind_attrs.
  cbn [lookup list_lookup fmap list_fmap lookup_total list_lookup_total].
  run_build. unfold addLinear, intrinsic_variables.
  cbn [variables constraints]. rewrite <- !allocate_all_app.
  unfold register_all, intrinsic, gv, mv0. cbn [foldl app].
  reflexivity.
Qed.

Lemma build_run_no_marks st s0 :
  marks st = [] →
  RectangleGlyph.buildIntrinsicConstraints st s0
  = ({| variables :=
          allocate_all (glyph_variables (attributes st)) (variables s0);
        constraints := register_all (take 8 intrinsic) (constraints s0) |},
     Throw TypeError).
Proof.
  intros Hm. destruct s0 as [V C].
  unfold RectangleGlyph.buildIntrinsicConstraints, mark_attributes_at.
  rewrite Hm, bind_attrs.
  cbn [lookup list_lookup fmap list_fmap lookup_total list_lookup_total].
  run_build. unfold register_all, intrinsic, gv, mv0. cbn [foldl take].
  reflexivity.
Qed.

Lemma intrinsic_variables_NoDup attrs mark0 :
  NoDup (intrinsic_variables attrs mark0).*1.
Proof.
  cbn. apply (bool_decide_unpack _). vm_compute. exact I.
Qed.

Lemma build_newSolver st m ms :
  marks st = m :: ms →
  RectangleGlyph.buildIntrinsicConstraints st newSolver
  = ({| variables := intrinsic_variables (attributes st) (mark_attributes m);
        constraints := intrinsic |}, Normal tt).
Proof.
  intros Hm. rewrite (build_run st m ms) by done.
  cbn [newSolver variables constraints].
  rewrite allocate_all_fresh by apply intrinsic_variables_NoDup.
  by rewrite register_all_app.
Qed.

(** Membership of a literal name in a literal list of names. *)
Ltac in_names :=
  unfold RectangleGlyph.attributeNames;
  repeat first [apply list_elem_of_here | apply list_elem_of_further].

(** One goal per element of a literal list. *)
Ltac each_element :=
  repeat (apply List.Forall_cons; [|]); try apply List.Forall_nil.

Lemma insert_schema name :
  name ∈ RectangleGlyph.attributeNames → {[name]} ∪ schema = schema.
Proof.
  intros Hn. apply elem_of_schema in Hn.
  apply subseteq_union_1_L. by apply singleton_subseteq_l.
Qed.

(** C7: [getAlignmentGuides] returns six visible guides, the x-axis guides
    tagged ix1, ix2, icx and the y-axis guides tagged iy1, iy2, icy, in
    that order, and the value of each guide is the current value of the
    attribute it is tagged with; on an initialized instance every value is
    a number. *)
Theorem getAlignmentGuides_spec (st : GlyphState) :
  let guides := RectangleGlyph.getAlignmentGuides st in
  (λ g, (SnappingGuides.type g, SnappingGuides.attribute g)) <$> guides
    = [ ("x", "ix1"); ("x", "ix2"); ("x", "icx");
        ("y", "iy1"); ("y", "iy2"); ("y", "icy") ] ∧
  Forall (λ g, SnappingGuides.value g
               = attributes st !! SnappingGuides.attribute g ∧
               SnappingGuides.visible g = true) guides ∧
  (schema_complete st →
   Forall (λ g, ∃ q, SnappingGuides.value g = Some q ∧
                     attributes st !! SnappingGuides.attribute g = Some q)
          guides).
Proof.
  cbv zeta. unfold RectangleGlyph.getAlignmentGuides. split; [done|].
  split; [by each_element|].
  intros H.
  assert (Hdef : ∀ name, name ∈ RectangleGlyph.attributeNames →
                         ∃ q, attributes st !! name = Some q).
  { intros name Hn. apply elem_of_schema in Hn.
    rewrite <- H in Hn. by apply elem_of_dom in Hn as [q ->]; eauto. }
  each_element; cbn;
    (edestruct Hdef as [q Hq]; [|exists q; by rewrite Hq]); in_names.
Qed.

(** C8: [getHandles] returns four line handles, two on axis x acting on
    ix1 and ix2 and two on axis y acting on iy1 and iy2; the value of each
    is the current value of the attribute it acts on, and the span of each
    is the finite range from -10000 to 10000. *)
Theorem getHandles_spec (st : GlyphState) :
  let handles := RectangleGlyph.getHandles st in
  length handles = 4%nat ∧
  (λ h, (Handles.type h, Handles.axis h, Handles.actions h)) <$> handles
    = [ ("line", "x", [Handles.mkAction "attribute" "ix1"]);
        ("line", "x", [Handles.mkAction "attribute" "ix2"]);
        ("line", "y", [Handles.mkAction "attribute" "iy1"]);
        ("line", "y", [Handles.mkAction "attribute" "iy2"]) ] ∧
  Forall (λ h, ∃ name,
            Handles.actions h = [Handles.mkAction "attribute" name] ∧
            name ∈ RectangleGlyph.attributeNames ∧
            Handles.value h = attributes st !! name ∧
            Handles.span h = (num (-10000), num 10000)) handles ∧
  num (-10000) < num 10000.
Proof.
  cbv zeta. unfold RectangleGlyph.getHandles. split; [done|]. split; [done|].
  split; [|done].
  each_element; eexists; (split; [reflexivity|]);
    (split; [|done]); in_names.
Qed.

Lemma intrinsic_equations :
  Forall2 (λ c equation, ∀ ρ, holds ρ c ↔ equation ρ)
          intrinsic rectangle_equations.
Proof.
  unfold intrinsic, rectangle_equations.
  repeat (apply List.Forall2_cons; [|]); try apply List.Forall2_nil;
    intros ρ; unfold holds;
    cbn [sum_terms foldr lhs rhs constant fst snd];
    apply number_eq_iff; ring.
Qed.

Lemma Forall2_Forall_iff {A B} (R : A → B → Prop) (P : A → Prop)
    (Q : B → Prop) l k :
  Forall2 R l k → (∀ x y, R x y → (P x ↔ Q y)) →
  (Forall P l ↔ Forall Q k).
Proof.
  intros H HR. induction H as [|x y l k Hxy _ IH]; [done|].
  by rewrite !Forall_cons, IH, (HR x y Hxy).
Qed.

Lemma intrinsic_holds ρ :
  Forall (holds ρ) intrinsic ↔ satisfies_equations ρ.
Proof.
  unfold satisfies_equations.
  apply (Forall2_Forall_iff _ _ _ _ _ intrinsic_equations).
  intros c equation H. apply H.
Qed.

Lemma intrinsic_all_hard :
  Forall (λ c, strength c = HARD ∧ constant c = 0) intrinsic.
Proof. unfold intrinsic. by each_element. Qed.

(** C1 (amended): for every glyph instance that owns at least one mark,
    [buildIntrinsicConstraints] succeeds and appends to the session exactly
    ten constraints, all HARD with constant 0, which say: x2 - x1 = width,
    y2 - y1 = height, ix2 - ix1 = width, iy2 - iy1 = height,
    ix1 + ix2 = 0, iy1 + iy2 = 0, icx = 0, icy = 0,
    x = 0.5 x1 + 0.5 x2 + (first mark's x) and
    y = 0.5 y1 + 0.5 y2 + (first mark's y). *)
Theorem buildIntrinsicConstraints_registers
    (st : GlyphState) (s0 : ConstraintSolver) :
  marks st ≠ [] →
  ∃ s registered,
    RectangleGlyph.buildIntrinsicConstraints st s0 = (s, Normal tt) ∧
    constraints s = constraints s0 ++ registered ∧
    Forall (λ c, strength c = HARD ∧ constant c = 0) registered ∧
    Forall2 (λ c equation, ∀ ρ, holds ρ c ↔ equation ρ)
            registered rectangle_equations.
Proof.
  intros Hm. destruct (marks st) as [|m ms] eqn:E; [done|].
  exists {| variables :=
              allocate_all
                (intrinsic_variables (attributes st) (mark_attributes m))
                (variables s0);
            constraints := register_all intrinsic (constraints s0) |},
         intrinsic.
  split; [by apply (build_run st m ms)|].
  split; [apply register_all_app|].
  split; [apply intrinsic_all_hard|]. apply intrinsic_equations.
Qed.

Lemma buildIntrinsicConstraints_registers_witness :
  let st := RectangleGlyph.initializeState
              (RectangleGlyph.freshState [mkMarkState {["x" := 0; "y" := 0]}])
  in
  marks st ≠ [] ∧
  ∃ s registered,
    RectangleGlyph.buildIntrinsicConstraints st newSolver = (s, Normal tt) ∧
    constraints s = constraints newSolver ++ registered ∧
    Forall (λ c, strength c = HARD ∧ constant c = 0) registered ∧
    Forall2 (λ c equation, ∀ ρ, holds ρ c ↔ equation ρ)
            registered rectangle_equations.
Proof.
  cbv zeta. split; [discriminate|].
  apply buildIntrinsicConstraints_registers. discriminate.
Defined.

(** C1, as stated, fails on an initialized glyph without marks: the
    eight constraints that do not involve a mark are registered, then the
    read of the first mark's attributes raises. *)
Lemma buildIntrinsicConstraints_no_marks_counterexample :
  let st := RectangleGlyph.initializeState (RectangleGlyph.freshState []) in
  ∃ s, RectangleGlyph.buildIntrinsicConstraints st newSolver
       = (s, Throw TypeError) ∧
       constraints s = take 8 intrinsic ∧
       length (constraints s) = 8%nat.
Proof.
  cbv zeta. eexists. split; [by apply build_run_no_marks|].
  cbn [constraints newSolver]. rewrite register_all_app. by split.
Qed.

(** C10: [buildIntrinsicConstraints] raises exactly when the glyph has no
    mark, which is exactly when the read of the first mark's attribute map
    yields none; with at least one mark it completes normally. *)
Theorem buildIntrinsicConstraints_needs_mark
    (st : GlyphState) (s0 : ConstraintSolver) :
  (marks st = [] ↔
   (RectangleGlyph.buildIntrinsicConstraints st s0).2 = Throw TypeError) ∧
  (marks st ≠ [] ↔
   (RectangleGlyph.buildIntrinsicConstraints st s0).2 = Normal tt) ∧
  (marks st = [] ↔ mark_attributes_at (marks st) 0 = Throw TypeError) ∧
  (marks st ≠ [] ↔
   ∃ attrs, mark_attributes_at (marks st) 0 = Normal attrs).
Proof.
  destruct (marks st) as [|m ms] eqn:E.
  - rewrite (build_run_no_marks st s0 E). cbn.
    repeat split; try done. by intros [attrs ?].
  - rewrite (build_run st m ms s0 E). cbn.
    repeat split; try done. by exists (mark_attributes m).
Qed.

(** ** Attribute access *)

Lemma declared_not_inherited name :
  name ∈ RectangleGlyph.attributeNames →
  (name ∉ JsObject.prototype) ∧ name ≠ "__proto__".
Proof.
  unfold RectangleGlyph.attributeNames. rewrite !elem_of_cons, elem_of_nil.
  intros H. repeat destruct H as [->|H]; try done;
    (split; [apply (bool_decide_unpack _); vm_compute; exact I | done]).
Qed.

(** Away from the members of [Object.prototype], a read of the object is
    the lookup the class's methods are written with. *)
Lemma get_of_attributes attrs name :
  name ∉ JsObject.prototype →
  JsObject.get (JsObject.of_attributes attrs) name =
  Normal (from_option (λ q, JsObject.Own (ANumber q)) JsObject.Undefined
                      (attrs !! name)).
Proof.
  intros H. unfold JsObject.get, JsObject.of_attributes.
  rewrite lookup_fmap. destruct (attrs !! name); cbn; [done|].
  by rewrite bool_decide_eq_false_2.
Qed.

(** Away from [__proto__], a write of a number is the insertion the
    class's methods are written with. *)
Lemma set_of_attributes attrs name q :
  name ≠ "__proto__" →
  JsObject.set (JsObject.of_attributes attrs) name (ANumber q) =
  Normal (JsObject.of_attributes (<[name := q]> attrs)).
Proof.
  intros H. unfold JsObject.set, JsObject.of_attributes.
  rewrite lookup_fmap, fmap_insert.
  destruct (attrs !! name); cbn; [done|].
  by rewrite bool_decide_eq_false_2.
Qed.

(** C9 (amended): reading and writing an attribute never fail, whatever
    the name, declared or not.  A read returns the stored value, with the
    kind it was stored with, for a name that is a key; for a name that is
    not a key it returns the member inherited from [Object.prototype] if
    there is one, and [undefined] otherwise.  A write stores a number,
    string or boolean as given, without coercion, creating the key when
    it is absent, except that a write to a [__proto__] that is not a key
    changes nothing; the other names are left alone.  For a declared
    name, a read after [initializeState] returns the number the map
    holds, and a write of a number is the insertion [set_attribute]
    performs. *)
Theorem attribute_access_total
    (attrs : JsObject.Properties) (name : string) (v : AttributeValue) :
  (∃ r, JsObject.get attrs name = Normal r ∧
        (∀ w, attrs !! name = Some w → r = JsObject.Own w) ∧
        (name ∉ dom attrs → name ∈ JsObject.prototype →
           r = JsObject.Inherited name) ∧
        (name ∉ dom attrs → name ∉ JsObject.prototype →
           r = JsObject.Undefined)) ∧
  (∃ attrs', JsObject.set attrs name v = Normal attrs' ∧
        (∀ other, other ≠ name → attrs' !! other = attrs !! other) ∧
        (name ∉ dom attrs → name = "__proto__" → attrs' = attrs) ∧
        (name ∈ dom attrs ∨ name ≠ "__proto__" →
           JsObject.get attrs' name = Normal (JsObject.Own v) ∧
           dom attrs' = {[name]} ∪ dom attrs)) ∧
  (name ∈ RectangleGlyph.attributeNames → ∀ st q,
     (∃ q0, attributes (RectangleGlyph.initializeState st) !! name = Some q0 ∧
            JsObject.get (JsObject.of_attributes
                            (attributes (RectangleGlyph.initializeState st)))
                         name
            = Normal (JsObject.Own (ANumber q0))) ∧
     JsObject.set (JsObject.of_attributes (attributes st)) name (ANumber q)
     = Normal (JsObject.of_attributes
                 (attributes (set_attribute name q st)))).
Proof.
  split; [|split].
  - eexists. split; [reflexivity|]. split; [|split].
    + by intros w ->.
    + intros H Hp. apply not_elem_of_dom in H. rewrite H.
      by rewrite bool_decide_eq_true_2.
    + intros H Hp. apply not_elem_of_dom in H. rewrite H.
      by rewrite bool_decide_eq_false_2.
  - eexists. split; [reflexivity|]. split; [|split].
    + intros other H. destruct (attrs !! name); [|case_bool_decide];
        try done; by apply lookup_insert_ne.
    + intros H ->. apply not_elem_of_dom in H. by rewrite H.
    + intros H.
      assert ((match attrs !! name with
               | Some _ => <[name := v]> attrs
               | None => if bool_decide (name = "__proto__") then attrs
                         else <[name := v]> attrs
               end) = <[name := v]> attrs) as ->.
      { destruct (attrs !! name) eqn:E; [done|].
        apply not_elem_of_dom in E. destruct H as [H|H]; [done|].
        by rewrite bool_decide_eq_false_2. }
      unfold JsObject.get. rewrite lookup_insert_eq.
      split; [done|]. apply dom_insert_L.
  - intros Hn st q. destruct (declared_not_inherited name Hn) as [Hp Hne].
    split.
    + assert (name ∈ dom (attributes (RectangleGlyph.initializeState st)))
        as [q0 Hq0]%elem_of_dom.
      { rewrite initializeState_attributes, defaultAttributes_dom.
        apply elem_of_union_l. by apply elem_of_schema. }
      exists q0. split; [done|]. by rewrite get_of_attributes, Hq0.
    + by apply set_of_attributes.
Qed.

(** C9, as stated, fails: on an initialized instance the undeclared name
    color is read as [undefined] and written without failure, after which
    the map holds it, as the string it was given; the undeclared name
    toString is read as the inherited member. *)
Lemma attribute_access_counterexample :
  let attrs := JsObject.of_attributes
                 (attributes (RectangleGlyph.initializeState
                                (RectangleGlyph.freshState []))) in
  ("color" ∉ RectangleGlyph.attributeNames) ∧
  ("toString" ∉ RectangleGlyph.attributeNames) ∧
  JsObject.get attrs "color" = Normal JsObject.Undefined ∧
  JsObject.get attrs "toString" = Normal (JsObject.Inherited "toString") ∧
  JsObject.get attrs "color" ≠ Throw UnknownAttribute ∧
  JsObject.set attrs "color" (AString "red") ≠ Throw UnknownAttribute ∧
  ∃ attrs', JsObject.set attrs "color" (AString "red") = Normal attrs' ∧
            JsObject.get attrs' "color"
            = Normal (JsObject.Own (AString "red")).
Proof.
  cbv zeta.
  assert ("color" ∉ RectangleGlyph.attributeNames) as Hc.
  { apply (bool_decide_unpack _). vm_compute. exact I. }
  assert ("toString" ∉ RectangleGlyph.attributeNames) as Ht.
  { apply (bool_decide_unpack _). vm_compute. exact I. }
  split; [done|]. split; [done|].
  assert (∀ k, k ∉ RectangleGlyph.attributeNames →
            JsObject.of_attributes
              (attributes (RectangleGlyph.initializeState
                             (RectangleGlyph.freshState []))) !! k = None)
    as E.
  { intros k Hk. apply not_elem_of_dom. unfold JsObject.of_attributes.
    rewrite dom_fmap_L, initializeState_attributes, defaultAttributes_dom.
    cbn [RectangleGlyph.freshState attributes].
    rewrite dom_empty_L, (right_id_L ∅ (∪)). by rewrite elem_of_schema. }
  unfold JsObject.get, JsObject.set. rewrite !E by done.
  split; [done|]. split; [done|]. split; [done|]. split; [done|].
  eexists. split; [reflexivity|].
  rewrite bool_decide_eq_false_2 by done. by rewrite lookup_insert_eq.
Qed.

(** ** Squares and sums of squares *)

Lemma sq_nonneg x : 0 ≤ sq x.
Proof.
  unfold sq. destruct (Qclt_le_dec x 0) as [Hneg|Hpos].
  - replace (x * x) with ((- x) * (- x)) by ring.
    assert (0 ≤ - x) as H.
    { apply Qclt_le_weak in Hneg. apply Qcopp_le_compat in Hneg.
      by replace (- 0) with 0 in Hneg by ring. }
    replace 0 with (0 * - x) at 1 by ring. by apply Qcmult_le_compat_r.
  - replace 0 with (0 * x) at 1 by ring. by apply Qcmult_le_compat_r.
Qed.

Lemma sq_zero x : sq x = 0 → x = 0.
Proof. unfold sq. intros H. by destruct (Qcmult_integral _ _ H). Qed.

Lemma nonneg_sum_zero a b : 0 ≤ a → 0 ≤ b → a + b = 0 → a = 0 ∧ b = 0.
Proof.
  intros Ha Hb H.
  assert (a ≤ 0) as Ha'.
  { rewrite <- H. replace a with (a + 0) at 1 by ring.
    by apply Qcplus_le_compat. }
  assert (a = 0) as -> by by apply Qcle_antisym.
  split; [done|]. rewrite <- H. ring.
Qed.

Lemma sum_sq_cons x xs : sum_sq (x :: xs) = sq x + sum_sq xs.
Proof. reflexivity. Qed.

Lemma sum_sq_nonneg xs : 0 ≤ sum_sq xs.
Proof.
  induction xs as [|x xs IH]; [apply Qcle_refl|]. rewrite sum_sq_cons.
  replace 0 with (0 + 0) by ring.
  apply Qcplus_le_compat; [apply sq_nonneg | exact IH].
Qed.

Lemma sum_sq_zero xs : sum_sq xs = 0 ↔ Forall (λ x, x = 0) xs.
Proof.
  induction xs as [|x xs IH].
  - by rewrite Forall_nil.
  - rewrite sum_sq_cons, Forall_cons, <- IH. split.
    + intros H. apply nonneg_sum_zero in H as [H1 H2];
        [|apply sq_nonneg|apply sum_sq_nonneg].
      split; [by apply sq_zero | done].
    + intros [-> ->]. unfold sq. ring.
Qed.


(** ** The lexicographic order on objectives *)

Lemma lex_le_app a b a' b' :
  length a = length b → lex_le a b → lex_le a' b' →
  lex_le (a ++ a') (b ++ b').
Proof.
  revert b. induction a as [|x a IH]; intros [|y b] Hlen H H'; try done.
  cbn in *. destruct H as [H|[-> H]]; [by left|].
  right. split; [done|]. apply IH; [congruence|done..].
Qed.

Lemma lex_le_prefix a b a' b' :
  length a = length b → lex_le (a ++ a') (b ++ b') → lex_le a b.
Proof.
  revert b. induction a as [|x a IH]; intros [|y b] Hlen H; try done.
  cbn in *. destruct H as [H|[-> H]]; [by left|].
  right. split; [done|]. apply IH; [congruence|done].
Qed.

Lemma lex_le_last a b x y :
  length a = length b → lex_le (a ++ [x]) (b ++ [y]) → lex_le b a → x ≤ y.
Proof.
  revert b. induction a as [|x0 a IH]; intros [|y0 b] Hlen H H'; try done.
  - cbn in H. destruct H as [H|[-> _]];
      [by apply Qclt_le_weak | apply Qcle_refl].
  - cbn in *. destruct H as [H|[-> H]].
    + destruct H' as [H'|[-> _]].
      * destruct (Qclt_not_le _ _ H). by apply Qclt_le_weak.
      * destruct (Qclt_not_le _ _ H). apply Qcle_refl.
    + destruct H' as [H'|[_ H']].
      * destruct (Qclt_not_le _ _ H'). apply Qcle_refl.
      * apply IH with b; [congruence|done..].
Qed.

(** ** Solving from a feasible starting guess *)

Lemma deviation_zero s ρ : deviation s ρ = 0 ↔ seeded_at s ρ.
Proof.
  unfold deviation, offsets, seeded_at. rewrite sum_sq_zero, Forall_forall.
  split.
  - intros H v q Hv. apply number_sub_0. apply H.
    apply list_elem_of_omap. by exists (v, Some q).
  - intros H x Hx. apply list_elem_of_omap in Hx as ([v [q|]] & Hv & Hq);
      [|done]. cbn in Hq. injection Hq as <-. rewrite (H v q Hv). ring.
Qed.

Lemma soft_objective_length s ρ ρ' :
  length (soft_objective s ρ) = length (soft_objective s ρ').
Proof. reflexivity. Qed.

Section WarmStart.

Variable s : ConstraintSolver.
Variable σ : Valuation.
Hypothesis feasible : satisfies_hard σ s.
Hypothesis at_seeds : seeded_at s σ.
Hypothesis soft_optimal :
  ∀ ρ, satisfies_hard ρ s →
       lex_le (soft_objective s σ) (soft_objective s ρ).

Lemma warm_start_solution : Solution s σ.
Proof.
  split; [exact feasible|]. intros ρ Hρ. unfold objective.
  apply lex_le_app; [apply soft_objective_length | by apply soft_optimal |].
  cbn. apply deviation_zero in at_seeds as ->.
  destruct (Qcle_lt_or_eq _ _ (sum_sq_nonneg (offsets s ρ))) as [H|H];
    [by left | right; by split].
Qed.

Lemma warm_start_unique ρ : Solution s ρ → seeded_at s ρ.
Proof.
  intros [Hρ Hbest]. apply deviation_zero. apply Qcle_antisym.
  - apply deviation_zero in at_seeds as <-.
    eapply lex_le_last; [apply (soft_objective_length s ρ σ) | |].
    + apply (Hbest σ feasible).
    + by apply soft_optimal.
  - apply sum_sq_nonneg.
Qed.

End WarmStart.

(** ** Reading and writing attributes through handles *)

Lemma var_eta v : mkVar (var_owner v) (var_name v) = v.
Proof. by destruct v. Qed.

Lemma owner_ok_dec st o : Decision (owner_ok st o).
Proof. destruct o; cbn; apply _. Qed.

Lemma owner_attributes_ok st o :
  owner_ok st o →
  ∃ a, owner_attributes st o = Normal a ∧
       ∀ name, a !! name = read_var st (mkVar o name).
Proof.
  destruct o as [|i]; cbn; intros H.
  - by exists (attributes st).
  - apply lookup_lt_is_Some_2 in H as [m Hm].
    exists (mark_attributes m). unfold mark_attributes_at, read_var. cbn.
    by rewrite Hm.
Qed.

Lemma owner_attributes_fail st o :
  ¬ owner_ok st o → owner_attributes st o = Throw TypeError.
Proof.
  destruct o as [|i]; cbn; intros H; [done|].
  unfold mark_attributes_at.
  destruct (marks st !! i) as [m|] eqn:E; [|done].
  destruct H. eapply lookup_lt_Some, E.
Qed.

Lemma write_var_marks_length v q st :
  length (marks (write_var v q st)) = length (marks st).
Proof.
  unfold write_var. destruct (var_owner v); cbn; [done|].
  apply length_alter.
Qed.

Lemma write_var_owner_ok v q st o :
  owner_ok (write_var v q st) o ↔ owner_ok st o.
Proof. destruct o; cbn; [done|]. by rewrite write_var_marks_length. Qed.

Lemma read_write_eq st v q :
  owner_ok st (var_owner v) → read_var (write_var v q st) v = Some q.
Proof.
  unfold read_var, write_var. destruct v as [[|i] name]; cbn; intros H.
  - apply lookup_insert_eq.
  - apply lookup_lt_is_Some_2 in H as [m Hm].
    rewrite list_lookup_alter_eq, Hm. cbn. apply lookup_insert_eq.
Qed.

Lemma read_write_ne st v v' q :
  v ≠ v' → read_var (write_var v' q st) v = read_var st v.
Proof.
  unfold read_var, write_var.
  destruct v as [[|i] name], v' as [[|i'] name']; cbn; intros H; try done.
  - apply lookup_insert_ne. congruence.
  - destruct (decide (i' = i)) as [->|Hi].
    + rewrite list_lookup_alter_eq.
      destruct (marks st !! i) as [m|]; cbn; [|done].
      apply lookup_insert_ne. congruence.
    + by rewrite list_lookup_alter_ne.
Qed.

Lemma write_var_id st v q : read_var st v = Some q → write_var v q st = st.
Proof.
  unfold read_var, write_var. destruct st as [a ms], v as [[|i] name]; cbn.
  - intros H. by rewrite insert_id.
  - intros H. f_equal. apply list_eq. intros j.
    destruct (decide (i = j)) as [<-|Hj].
    + rewrite list_lookup_alter_eq.
      destruct (ms !! i) as [[m]|]; cbn in *; [|done].
      by rewrite insert_id.
    + by rewrite list_lookup_alter_ne.
Qed.

(** ** Write-back *)

Lemma write_all_marks_length ρ vs st :
  length (marks (write_all ρ vs st)) = length (marks st).
Proof.
  revert st. induction vs as [|v vs IH]; intros st; cbn; [done|].
  unfold write_all in IH. by rewrite IH, write_var_marks_length.
Qed.

Lemma read_write_all_other ρ vs st v :
  v ∉ vs → read_var (write_all ρ vs st) v = read_var st v.
Proof.
  revert st. induction vs as [|v' vs IH]; intros st Hv; cbn; [done|].
  apply not_elem_of_cons in Hv as [Hne Hv].
  unfold write_all in IH. by rewrite IH, read_write_ne.
Qed.

Lemma read_write_all ρ vs st v :
  v ∈ vs → owner_ok st (var_owner v) →
  read_var (write_all ρ vs st) v = Some (ρ v).
Proof.
  revert st. induction vs as [|v' vs IH]; intros st Hv Hok; cbn.
  - by apply elem_of_nil in Hv.
  - destruct (decide (v ∈ vs)) as [Hin|Hout].
    + apply IH; [done|]. by apply write_var_owner_ok.
    + apply elem_of_cons in Hv as [->|Hv]; [|done].
      fold (write_all ρ vs (write_var v' (ρ v') st)).
      rewrite read_write_all_other by done. by apply read_write_eq.
Qed.

Lemma write_all_id ρ vs st :
  (∀ v, v ∈ vs → read_var st v = Some (ρ v)) → write_all ρ vs st = st.
Proof.
  induction vs as [|v vs IH]; intros H; cbn; [done|].
  rewrite write_var_id by (apply H; left).
  apply IH. intros v' Hv'. apply H. by right.
Qed.

Lemma distribute_write_all s ρ st :
  distribute s ρ st = write_all ρ (variables s).*1 st.
Proof. reflexivity. Qed.

(** ** Collecting a session *)

Lemma bind_run {A B} (m : M A) (k : A → M B) s :
  bind m k s = match m s with
               | (s', Normal a) => k a s'
               | (s', Throw e) => (s', Throw e)
               end.
Proof. reflexivity. Qed.

Lemma allocate_similar v q q' s s' :
  similar s s' → similar (allocate v q s) (allocate v q' s').
Proof.
  intros [Hv Hc]. unfold similar, allocate, is_registered. cbn.
  rewrite Hv, Hc. split; [|done].
  case_bool_decide; [done|]. by rewrite !fmap_app, Hv.
Qed.

Lemma allocate_coherent st v q s :
  coherent st s → q = read_var st v → owner_ok st (var_owner v) →
  coherent st (allocate v q s).
Proof.
  intros H Hq Hok v' q' Hin. unfold allocate in Hin. cbn in Hin.
  destruct (is_registered v s); [by apply H|].
  apply elem_of_app in Hin as [Hin|Hin]; [by apply H|].
  apply list_elem_of_singleton in Hin as [= -> ->]. by split.
Qed.

Lemma registerTerms_cons st t rest s :
  registerTerms st (t :: rest) s
  = match owner_attributes st (var_owner t.2) with
    | Normal m =>
        registerTerms st rest (allocate t.2 (m !! var_name t.2) s)
    | Throw e => (s, Throw e)
    end.
Proof.
  cbn [registerTerms]. rewrite bind_run. unfold lift.
  destruct (owner_attributes st (var_owner t.2)) as [m|e]; [|done].
  rewrite bind_run. unfold attr. by rewrite var_eta.
Qed.

Lemma registerTerms_similar st st' ts s s' :
  length (marks st) = length (marks st') → similar s s' →
  similar (registerTerms st ts s).1 (registerTerms st' ts s').1 ∧
  (registerTerms st ts s).2 = (registerTerms st' ts s').2.
Proof.
  intros Hlen. revert s s'.
  induction ts as [|t rest IH]; intros s s' Hsim; [done|].
  rewrite !registerTerms_cons.
  destruct (owner_ok_dec st (var_owner t.2)) as [Hok|Hno].
  - assert (owner_ok st' (var_owner t.2)) as Hok'.
    { destruct (var_owner t.2); cbn in *; [done|]. by rewrite <- Hlen. }
    destruct (owner_attributes_ok _ _ Hok) as (m & -> & _).
    destruct (owner_attributes_ok _ _ Hok') as (m' & -> & _).
    apply IH. by apply allocate_similar.
  - assert (¬ owner_ok st' (var_owner t.2)) as Hno'.
    { destruct (var_owner t.2); cbn in *; [done|]. by rewrite <- Hlen. }
    by rewrite !owner_attributes_fail.
Qed.

Lemma registerTerms_coherent st ts s :
  coherent st s → coherent st (registerTerms st ts s).1.
Proof.
  revert s. induction ts as [|t rest IH]; intros s H; [done|].
  rewrite registerTerms_cons.
  destruct (owner_ok_dec st (var_owner t.2)) as [Hok|Hno].
  - destruct (owner_attributes_ok _ _ Hok) as (m & -> & Hm).
    apply IH. apply allocate_coherent; [done| |done].
    by rewrite Hm, var_eta.
  - by rewrite owner_attributes_fail.
Qed.

Lemma linear_eta c :
  mkLinear (strength c) (constant c) (lhs c) (rhs c) = c.
Proof. by destruct c. Qed.

Lemma addExternal_similar st st' c s s' :
  length (marks st) = length (marks st') → similar s s' →
  similar (addExternal st c s).1 (addExternal st' c s').1 ∧
  (addExternal st c s).2 = (addExternal st' c s').2.
Proof.
  intros Hlen Hsim. unfold addExternal. rewrite !bind_run.
  destruct (registerTerms_similar st st' (lhs c) s s' Hlen Hsim) as [H1 E1].
  destruct (registerTerms st (lhs c) s) as [s1 c1],
           (registerTerms st' (lhs c) s') as [s1' c1'].
  cbn in H1, E1. subst c1'. destruct c1 as [[]|e]; [|done].
  rewrite !bind_run.
  destruct (registerTerms_similar st st' (rhs c) s1 s1' Hlen H1) as [H2 E2].
  destruct (registerTerms st (rhs c) s1) as [s2 c2],
           (registerTerms st' (rhs c) s1') as [s2' c2'].
  cbn in H2, E2. subst c2'. destruct c2 as [[]|e]; [|done].
  unfold addLinear. cbn. destruct H2 as [Hv Hc].
  split; [|done]. split; [done|]. cbn. by rewrite Hc.
Qed.

Lemma addExternal_coherent st c s :
  coherent st s → coherent st (addExternal st c s).1.
Proof.
  intros H. unfold addExternal. rewrite !bind_run.
  pose proof (registerTerms_coherent st (lhs c) s H) as H1.
  destruct (registerTerms st (lhs c) s) as [s1 [[]|e]]; [|done].
  rewrite bind_run. cbn in H1.
  pose proof (registerTerms_coherent st (rhs c) s1 H1) as H2.
  destruct (registerTerms st (rhs c) s1) as [s2 [[]|e]]; done.
Qed.

Lemma registerTerms_constraints st ts s :
  constraints (registerTerms st ts s).1 = constraints s.
Proof.
  revert s. induction ts as [|t rest IH]; intros s; [done|].
  rewrite registerTerms_cons.
  destruct (owner_attributes st (var_owner t.2)) as [m|e]; [|done].
  by rewrite IH.
Qed.

Lemma addExternal_constraints st c s s' :
  addExternal st c s = (s', Normal tt) →
  constraints s' = constraints s ++ [c].
Proof.
  unfold addExternal. rewrite !bind_run.
  pose proof (registerTerms_constraints st (lhs c) s) as H1.
  destruct (registerTerms st (lhs c) s) as [s1 [[]|e]]; [|done].
  rewrite bind_run.
  pose proof (registerTerms_constraints st (rhs c) s1) as H2.
  destruct (registerTerms st (rhs c) s1) as [s2 [[]|e]]; [|done].
  unfold addLinear. intros [= <-]. cbn in *.
  by rewrite linear_eta, H2, H1.
Qed.

Lemma addExternals_similar st st' cs s s' :
  length (marks st) = length (marks st') → similar s s' →
  similar (addExternals st cs s).1 (addExternals st' cs s').1 ∧
  (addExternals st cs s).2 = (addExternals st' cs s').2.
Proof.
  intros Hlen. revert s s'.
  induction cs as [|c cs IH]; intros s s' Hsim; [done|].
  cbn [addExternals]. rewrite !bind_run.
  destruct (addExternal_similar st st' c s s' Hlen Hsim) as [H1 E1].
  destruct (addExternal st c s) as [s1 c1],
           (addExternal st' c s') as [s1' c1'].
  cbn in H1, E1. subst c1'. destruct c1 as [[]|e]; [|done].
  by apply IH.
Qed.

Lemma addExternals_coherent st cs s :
  coherent st s → coherent st (addExternals st cs s).1.
Proof.
  revert s. induction cs as [|c cs IH]; intros s H; [done|].
  cbn [addExternals]. rewrite bind_run.
  pose proof (addExternal_coherent st c s H) as H1.
  destruct (addExternal st c s) as [s1 [[]|e]]; [|done].
  by apply IH.
Qed.

Lemma addExternals_constraints st cs s s' :
  addExternals st cs s = (s', Normal tt) →
  constraints s' = constraints s ++ cs.
Proof.
  revert s. induction cs as [|c cs IH]; intros s.
  - intros [= <-]. by rewrite app_nil_r.
  - cbn [addExternals]. rewrite bind_run.
    destruct (addExternal st c s) as [s1 [[]|e]] eqn:E; [|done].
    intros H. apply IH in H. apply addExternal_constraints in E.
    by rewrite H, E, <- app_assoc.
Qed.

Lemma collect_run ext st m ms :
  marks st = m :: ms →
  collect ext st = addExternals st ext (intrinsic_session st m).
Proof.
  intros Hm. unfold collect. rewrite bind_run.
  by rewrite (build_newSolver st m ms Hm).
Qed.

Lemma collect_no_marks ext st :
  marks st = [] → (collect ext st).2 = Throw TypeError.
Proof.
  intros Hm. unfold collect. rewrite bind_run.
  by rewrite (build_run_no_marks st newSolver Hm).
Qed.

Lemma intrinsic_session_coherent st m ms :
  marks st = m :: ms → coherent st (intrinsic_session st m).
Proof.
  intros Hm v q Hin. unfold intrinsic_session in Hin.
  cbn [variables] in Hin. unfold intrinsic_variables in Hin.
  apply elem_of_app in Hin as [Hin|Hin].
  - unfold glyph_variables in Hin.
    apply list_elem_of_fmap in Hin as (name & [= -> ->] & _). by split.
  - unfold read_var, owner_ok. rewrite Hm.
    apply elem_of_cons in Hin as [[= -> ->]|Hin]; [cbn; split; [done|lia]|].
    apply list_elem_of_singleton in Hin as [= -> ->]. cbn. split; [done|lia].
Qed.

Lemma intrinsic_session_similar st m st' m' :
  similar (intrinsic_session st m) (intrinsic_session st' m').
Proof. by split. Qed.

Lemma collect_constraints ext st s :
  collect ext st = (s, Normal tt) → constraints s = intrinsic ++ ext.
Proof.
  destruct (marks st) as [|m ms] eqn:Hm.
  - intros H. pose proof (collect_no_marks ext st Hm) as E.
    by rewrite H in E.
  - rewrite (collect_run ext st m ms Hm). apply addExternals_constraints.
Qed.

Lemma glyph_variables_NoDup attrs : NoDup ([] ++ (glyph_variables attrs).*1).
Proof. cbn. apply (bool_decide_unpack _). vm_compute. exact I. Qed.

Lemma collect_coherent ext st : coherent st (collect ext st).1.
Proof.
  destruct (marks st) as [|m ms] eqn:Hm.
  - unfold collect. rewrite bind_run.
    rewrite (build_run_no_marks st newSolver Hm).
    cbn [fst newSolver variables]. intros v q Hin.
    rewrite allocate_all_fresh in Hin by apply glyph_variables_NoDup.
    apply list_elem_of_fmap in Hin as (name & [= -> ->] & _).
    by split.
  - rewrite (collect_run ext st m ms Hm). apply addExternals_coherent.
    by apply intrinsic_session_coherent with ms.
Qed.

Lemma collect_similar ext st st' :
  length (marks st) = length (marks st') →
  (collect ext st).2 = Normal tt →
  similar (collect ext st).1 (collect ext st').1 ∧
  (collect ext st').2 = Normal tt.
Proof.
  intros Hlen Hok.
  destruct (marks st) as [|m ms] eqn:Hm.
  { by rewrite (collect_no_marks ext st Hm) in Hok. }
  destruct (marks st') as [|m' ms'] eqn:Hm'; [done|].
  rewrite (collect_run ext st m ms Hm) in Hok |- *.
  rewrite (collect_run ext st' m' ms' Hm').
  destruct (addExternals_similar st st' ext
              (intrinsic_session st m) (intrinsic_session st' m'))
    as [Hsim E]; [by rewrite Hm, Hm' | apply intrinsic_session_similar |].
  split; [done|]. by rewrite <- E.
Qed.

(** ** Solve cycles *)

Lemma similar_satisfies_hard ρ s s' :
  similar s s' → satisfies_hard ρ s ↔ satisfies_hard ρ s'.
Proof. intros [_ H]. unfold satisfies_hard, tier. by rewrite H. Qed.

Lemma similar_soft_objective ρ s s' :
  similar s s' → soft_objective s ρ = soft_objective s' ρ.
Proof. intros [_ H]. unfold soft_objective, penalty, tier. by rewrite H. Qed.

Lemma all_hard_soft_objective s ρ :
  Forall (λ c, strength c = HARD) (constraints s) →
  soft_objective s ρ = [0; 0; 0].
Proof.
  intros H. unfold soft_objective, penalty, tier.
  assert (∀ t, t ≠ HARD → filter (λ c, strength c = t) (constraints s) = [])
    as Hnone.
  { intros t Ht. induction H as [|c cs Hc _ IH]; [done|].
    rewrite filter_cons_False; [done|]. by rewrite Hc. }
  by rewrite !Hnone.
Qed.

Lemma lex_le_refl a : lex_le a a.
Proof. induction a as [|x a IH]; [done|]. right. by split. Qed.

(** A state whose values satisfy the HARD constraints, are best for the
    soft ones and seed every variable of the session is the one outcome of
    a solve cycle. *)
Lemma solveCycle_stable ext st s ρ0 :
  collect ext st = (s, Normal tt) →
  satisfies_hard ρ0 s →
  (∀ ρ, satisfies_hard ρ s →
        lex_le (soft_objective s ρ0) (soft_objective s ρ)) →
  (∀ v q, (v, q) ∈ variables s → read_var st v = Some (ρ0 v)) →
  solveCycle ext st (st, None) ∧
  ∀ out, solveCycle ext st out → out = (st, None).
Proof.
  intros Hc Hhard Hsoft Hseed.
  assert (coherent st s) as Hcoh.
  { pose proof (collect_coherent ext st) as H. by rewrite Hc in H. }
  assert (seeded_at s ρ0) as Hat.
  { intros v q Hin. destruct (Hcoh _ _ Hin) as [Hq _].
    rewrite (Hseed _ _ Hin) in Hq. by injection Hq. }
  assert (∀ ρ, Solution s ρ → distribute s ρ st = st) as Hfix.
  { intros ρ Hρ. rewrite distribute_write_all. apply write_all_id.
    intros v Hv. apply list_elem_of_fmap in Hv as ([v' q] & -> & Hin).
    cbn. rewrite (Hseed _ _ Hin). f_equal. symmetry.
    apply (warm_start_unique s ρ0 Hhard Hat Hsoft ρ Hρ v' (ρ0 v')).
    destruct (Hcoh _ _ Hin) as [-> _]. by rewrite (Hseed _ _ Hin) in Hin. }
  pose proof (warm_start_solution s ρ0 Hhard Hat Hsoft) as Hsol.
  unfold solveCycle. rewrite Hc. split.
  - exists (Solved ρ0). split; [done|]. cbn. by rewrite Hfix.
  - intros out ([ρ|e] & Hr & ->); cbn in *.
    + by rewrite Hfix.
    + destruct Hr as [_ Hr]. by destruct (Hr ρ0).
Qed.

(** Values of the default state on the variables of the glyph. *)
Lemma valuation_of_default st name q :
  defaultAttributes (attributes st) !! name = Some q →
  valuation_of (RectangleGlyph.initializeState st) (gv name) = q.
Proof.
  intros H. unfold valuation_of, read_var. cbn [gv var_owner var_name].
  by rewrite initializeState_attributes, H.
Qed.

Lemma valuation_of_first_mark st m ms name q :
  marks st = m :: ms → mark_attributes m !! name = Some q →
  valuation_of (RectangleGlyph.initializeState st) (mv0 name) = q.
Proof.
  intros Hm H. unfold valuation_of, read_var. cbn [mv0 var_owner var_name].
  by rewrite initializeState_marks, Hm; cbn; rewrite H.
Qed.

Lemma tier_HARD_intrinsic st m :
  tier HARD (intrinsic_session st m) = intrinsic.
Proof. reflexivity. Qed.

Lemma default_state_equations st m ms :
  marks st = m :: ms →
  mark_attributes m !! "x" = Some 0 → mark_attributes m !! "y" = Some 0 →
  satisfies_equations (valuation_of (RectangleGlyph.initializeState st)).
Proof.
  intros Hm Hx Hy. unfold satisfies_equations, rectangle_equations.
  rewrite !Forall_cons, Forall_nil. cbv beta.
  rewrite (valuation_of_first_mark st m ms "x" 0 Hm Hx).
  rewrite (valuation_of_first_mark st m ms "y" 0 Hm Hy).
  destruct (defaultAttributes_lookup (attributes st))
    as (Dx & Dy & Dw & Dh & Dx1 & Dx2 & Dy1 & Dy2 & Dix1 & Dix2 & Diy1
        & Diy2 & Dicx & Dicy).
  rewrite (valuation_of_default st _ _ Dx), (valuation_of_default st _ _ Dy),
    (valuation_of_default st _ _ Dw), (valuation_of_default st _ _ Dh),
    (valuation_of_default st _ _ Dx1), (valuation_of_default st _ _ Dx2),
    (valuation_of_default st _ _ Dy1), (valuation_of_default st _ _ Dy2),
    (valuation_of_default st _ _ Dix1), (valuation_of_default st _ _ Dix2),
    (valuation_of_default st _ _ Diy1), (valuation_of_default st _ _ Diy2),
    (valuation_of_default st _ _ Dicx), (valuation_of_default st _ _ Dicy).
  repeat split; num_compute.
Qed.

Lemma default_state_seeds st m ms v q :
  marks st = m :: ms →
  is_Some (mark_attributes m !! "x") → is_Some (mark_attributes m !! "y") →
  (v, q) ∈ variables (intrinsic_session (RectangleGlyph.initializeState st) m) →
  is_Some (read_var (RectangleGlyph.initializeState st) v).
Proof.
  intros Hm Hx Hy Hin. unfold intrinsic_session in Hin.
  cbn [variables] in Hin. unfold intrinsic_variables in Hin.
  apply elem_of_app in Hin as [Hin|Hin].
  - unfold glyph_variables in Hin.
    apply list_elem_of_fmap in Hin as (name & [= -> ->] & Hname).
    unfold read_var. cbn [gv var_owner var_name].
    apply elem_of_dom. rewrite initializeState_attributes.
    rewrite defaultAttributes_dom. apply elem_of_union_l.
    by apply elem_of_schema.
  - unfold read_var. rewrite initializeState_marks, Hm.
    apply elem_of_cons in Hin as [[= -> ->]|Hin]; [done|].
    by apply list_elem_of_singleton in Hin as [= -> ->].
Qed.

Lemma default_state_hard st m ms :
  marks st = m :: ms →
  mark_attributes m !! "x" = Some 0 → mark_attributes m !! "y" = Some 0 →
  satisfies_hard (valuation_of (RectangleGlyph.initializeState st))
                 (intrinsic_session (RectangleGlyph.initializeState st) m).
Proof.
  intros Hm Hx Hy. unfold satisfies_hard. rewrite tier_HARD_intrinsic.
  apply intrinsic_holds. by apply default_state_equations with m ms.
Qed.

Lemma default_state_stable st m ms :
  marks st = m :: ms →
  mark_attributes m !! "x" = Some 0 → mark_attributes m !! "y" = Some 0 →
  solveCycle [] (RectangleGlyph.initializeState st)
             (RectangleGlyph.initializeState st, None) ∧
  ∀ out, solveCycle [] (RectangleGlyph.initializeState st) out →
         out = (RectangleGlyph.initializeState st, None).
Proof.
  intros Hm Hx Hy.
  assert (marks (RectangleGlyph.initializeState st) = m :: ms) as Hm0 by done.
  apply solveCycle_stable
    with (s := intrinsic_session (RectangleGlyph.initializeState st) m)
         (ρ0 := valuation_of (RectangleGlyph.initializeState st)).
  - by rewrite (collect_run [] _ m ms Hm0).
  - by apply default_state_hard with ms.
  - intros ρ _. rewrite !all_hard_soft_objective; [apply lex_le_refl|..];
      cbn [constraints intrinsic_session];
      eapply Forall_impl; [apply intrinsic_all_hard|by intros ? []
                          |apply intrinsic_all_hard|by intros ? []].
  - intros v q Hin. unfold valuation_of.
    destruct (default_state_seeds st m ms v q Hm) as [x ->]; by eauto.
Qed.



(** With the first mark away from the origin the coupling equation for x
    fails at the default state, whatever else a valuation does. *)
Lemma default_state_offset_mark st m ms (ρ : Valuation) :
  marks st = m :: ms →
  mark_attributes m !! "x" = Some (num 5) →
  (∀ v q, (v, q) ∈ variables
                     (intrinsic_session (RectangleGlyph.initializeState st) m)
          → q = Some (ρ v)) →
  ¬ satisfies_hard ρ (intrinsic_session (RectangleGlyph.initializeState st) m).
Proof.
  intros Hm Hm5 Hρ Hh. unfold satisfies_hard in Hh.
  rewrite tier_HARD_intrinsic in Hh. apply intrinsic_holds in Hh.
  unfold satisfies_equations, rectangle_equations in Hh.
  rewrite !Forall_cons in Hh.
  destruct Hh as (_ & _ & _ & _ & _ & _ & _ & _ & Hx & _).
  assert (∀ name q,
    defaultAttributes (attributes st) !! name = Some q →
    name ∈ RectangleGlyph.attributeNames → ρ (gv name) = q) as Hg.
  { intros name q Hq Hname.
    assert (Some q = Some (ρ (gv name))) as [= ->]; [|done].
    rewrite <- Hq, <- initializeState_attributes.
    apply Hρ. cbn [variables intrinsic_session]. apply elem_of_app. left.
    apply list_elem_of_fmap. by exists name. }
  assert (ρ (mv0 "x") = num 5) as Hmx.
  { assert (Some (num 5) = Some (ρ (mv0 "x"))) as [= <-]; [|done].
    rewrite <- Hm5. apply Hρ. cbn [variables intrinsic_session].
    apply elem_of_app. right. left. }
  rewrite Hmx in Hx.
  destruct (defaultAttributes_lookup (attributes st))
    as (Dx & _ & _ & _ & Dx1 & Dx2 & _).
  rewrite (Hg "x" 0 Dx), (Hg "x1" (num (-30)) Dx1),
    (Hg "x2" (num 30) Dx2) in Hx by in_names.
  revert Hx. apply (bool_decide_unpack _). vm_compute. exact I.
Qed.

Lemma offset_mark_not_fixed_point st m ms :
  marks st = m :: ms →
  mark_attributes m !! "x" = Some (num 5) →
  is_Some (mark_attributes m !! "y") →
  let st0 := RectangleGlyph.initializeState st in
  ∃ s, RectangleGlyph.buildIntrinsicConstraints st0 newSolver
       = (s, Normal tt) ∧
       ¬ satisfies_hard (valuation_of st0) s ∧
       ¬ solveCycle [] st0 (st0, None).
Proof.
  intros Hm Hx Hy. cbv zeta.
  assert (marks (RectangleGlyph.initializeState st) = m :: ms) as Hm0 by done.
  exists (intrinsic_session (RectangleGlyph.initializeState st) m).
  split; [by apply build_newSolver with ms|]. split.
  - apply (default_state_offset_mark st m ms); [done..|]. intros v q Hin.
    pose proof (intrinsic_session_coherent _ m ms Hm0 v q Hin) as [-> _].
    unfold valuation_of.
    destruct (default_state_seeds st m ms v
                (read_var (RectangleGlyph.initializeState st) v) Hm)
      as [x ->]; [by rewrite Hx | done | exact Hin | done].
  - unfold solveCycle.
    rewrite (collect_run [] _ m ms Hm0). cbn [addExternals ret].
    intros ([ρ|e] & Hr & Hout); [|done].
    apply (f_equal fst) in Hout. unfold applyResult in Hout.
    cbn [fst] in Hout. destruct Hr as [Hh _].
    apply (default_state_offset_mark st m ms ρ); [done..| |done].
    intros v q Hin.
    pose proof (intrinsic_session_coherent _ m ms Hm0 v q Hin) as [-> Hok].
    rewrite Hout at 1. rewrite distribute_write_all.
    apply read_write_all; [|done].
    apply list_elem_of_fmap.
    by exists (v, read_var (RectangleGlyph.initializeState st) v).
Qed.




(** ** Write-back and the schema *)

Lemma write_var_schema v q st :
  schema_handle v → schema_complete st → schema_complete (write_var v q st).
Proof.
  unfold schema_handle, schema_complete, write_var.
  destruct v as [[|i] name]; cbn; intros Hv H; [|done].
  rewrite dom_insert_L, H. by apply insert_schema, Hv.
Qed.

Lemma write_all_schema ρ vs st :
  Forall schema_handle vs → schema_complete st →
  schema_complete (write_all ρ vs st).
Proof.
  intros Hvs. revert st. induction Hvs as [|v vs Hv _ IH]; intros st H.
  - done.
  - cbn. apply IH. by apply write_var_schema.
Qed.

Lemma allocate_schema v q s :
  schema_handle v → Forall schema_handle (variables s).*1 →
  Forall schema_handle (variables (allocate v q s)).*1.
Proof.
  intros Hv H. unfold allocate. cbn. destruct (is_registered v s); [done|].
  rewrite fmap_app. apply Forall_app. split; [done|]. by apply Forall_singleton.
Qed.

Lemma registerTerms_schema st ts s :
  Forall (λ t : Term, schema_handle t.2) ts →
  Forall schema_handle (variables s).*1 →
  Forall schema_handle (variables (registerTerms st ts s).1).*1.
Proof.
  intros Hts. revert s. induction Hts as [|t rest Ht _ IH]; intros s H.
  - done.
  - rewrite registerTerms_cons.
    destruct (owner_attributes st (var_owner t.2)) as [m|e]; [|done].
    apply IH. by apply allocate_schema.
Qed.

Lemma addExternal_schema st c s :
  Forall (λ t : Term, schema_handle t.2) (lhs c ++ rhs c) →
  Forall schema_handle (variables s).*1 →
  Forall schema_handle (variables (addExternal st c s).1).*1.
Proof.
  intros Hc H. apply Forall_app in Hc as [Hl Hr].
  unfold addExternal. rewrite !bind_run.
  pose proof (registerTerms_schema st (lhs c) s Hl H) as H1.
  destruct (registerTerms st (lhs c) s) as [s1 [[]|e]]; [|done].
  rewrite bind_run. cbn [fst] in H1.
  pose proof (registerTerms_schema st (rhs c) s1 Hr H1) as H2.
  destruct (registerTerms st (rhs c) s1) as [s2 [[]|e]]; done.
Qed.

Lemma addExternals_schema st ext s :
  conforming ext →
  Forall schema_handle (variables s).*1 →
  Forall schema_handle (variables (addExternals st ext s).1).*1.
Proof.
  revert s. induction ext as [|c ext IH]; intros s Hext H; [done|].
  cbn [addExternals]. rewrite bind_run.
  assert (Forall schema_handle (variables (addExternal st c s).1).*1) as H1.
  { apply addExternal_schema; [|done]. apply Forall_forall.
    intros t Ht. apply (Hext c t); [left|done]. }
  destruct (addExternal st c s) as [s1 [[]|e]]; [|done].
  apply IH; [|done]. intros c' t Hc'. apply Hext. by right.
Qed.

Lemma intrinsic_variables_schema attrs mark0 :
  Forall schema_handle (intrinsic_variables attrs mark0).*1.
Proof.
  unfold intrinsic_variables, glyph_variables, RectangleGlyph.attributeNames.
  cbn [fmap list_fmap app fst]. each_element; intros H; try done;
    cbn [gv var_name]; in_names.
Qed.

Lemma collect_schema ext st s :
  conforming ext → collect ext st = (s, Normal tt) →
  Forall schema_handle (variables s).*1.
Proof.
  intros Hext Hc. destruct (marks st) as [|m ms] eqn:Hm.
  - pose proof (collect_no_marks ext st Hm) as E. by rewrite Hc in E.
  - rewrite (collect_run ext st m ms Hm) in Hc.
    pose proof (addExternals_schema st ext (intrinsic_session st m) Hext
                  (intrinsic_variables_schema _ _)) as H.
    by rewrite Hc in H.
Qed.

Lemma solveCycle_schema ext st out :
  conforming ext → schema_complete st → solveCycle ext st out →
  schema_complete out.1.
Proof.
  intros Hext H. unfold solveCycle.
  destruct (collect ext st) as [s [[]|e]] eqn:Hc; [|by intros ->].
  intros ([ρ|e] & _ & ->); [|done]. cbn [applyResult fst].
  rewrite distribute_write_all. apply write_all_schema; [|done].
  by apply collect_schema with ext st.
Qed.

Lemma write_var_dom v q st :
  dom (attributes st) ⊆ dom (attributes (write_var v q st)).
Proof.
  unfold write_var. destruct (var_owner v); cbn; [|done].
  rewrite dom_insert_L. apply union_subseteq_r.
Qed.

Lemma write_all_dom ρ vs st :
  dom (attributes st) ⊆ dom (attributes (write_all ρ vs st)).
Proof.
  revert st. induction vs as [|v vs IH]; intros st; [done|].
  cbn. etrans; [apply (write_var_dom v (ρ v))|]. apply IH.
Qed.

Lemma solveCycle_dom ext st out :
  solveCycle ext st out → dom (attributes st) ⊆ dom (attributes out.1).
Proof.
  unfold solveCycle.
  destruct (collect ext st) as [s [[]|e]]; [|by intros ->].
  intros ([ρ|e] & _ & ->); [|done]. cbn [applyResult fst].
  rewrite distribute_write_all. apply write_all_dom.
Qed.

Lemma write_all_key ρ vs st name :
  mkVar OGlyph name ∈ vs → name ∈ dom (attributes (write_all ρ vs st)).
Proof.
  intros Hin. apply elem_of_dom. exists (ρ (mkVar OGlyph name)).
  by apply (read_write_all ρ vs st (mkVar OGlyph name)).
Qed.

Lemma allocate_registered v q s : v ∈ (variables (allocate v q s)).*1.
Proof.
  unfold allocate, is_registered. cbn [variables]. case_bool_decide; [done|].
  rewrite fmap_app. apply elem_of_app. right. by apply list_elem_of_here.
Qed.

Lemma addExternal_single st w a name s :
  addExternal st (mkLinear w a [(1, gv name)] []) s
  = ({| variables := variables (allocate (gv name) (attributes st !! name) s);
        constraints := constraints s ++ [mkLinear w a [(1, gv name)] []] |},
     Normal tt).
Proof. reflexivity. Qed.



(** ** Contradictory HARD constraints *)

Lemma holds_pin ρ x a : holds ρ (pin x a) ↔ ρ x = a.
Proof.
  unfold holds, pin. cbn [sum_terms foldr lhs rhs constant fst snd].
  apply number_eq_iff. ring.
Qed.

Lemma pin_forces x a : forces (pin x a) x a.
Proof. split; [done|]. intros ρ. apply holds_pin. Qed.

Lemma forced_apart ρ s c1 c2 x a b :
  forces c1 x a → forces c2 x b → a ≠ b →
  c1 ∈ constraints s → c2 ∈ constraints s →
  ¬ satisfies_hard ρ s.
Proof.
  intros [Hs1 H1] [Hs2 H2] Hab Hc1 Hc2 Hh. unfold satisfies_hard in Hh.
  rewrite Forall_forall in Hh. apply Hab.
  rewrite <- (H1 ρ), <- (H2 ρ);
    [done|apply Hh; by apply list_elem_of_filter..].
Qed.

(** C5: when two HARD constraints of a session force one variable to two
    different values, [solve()] can only report [Infeasible], and the
    orchestrator then hands back the state it was given: every outcome of
    a solve cycle over such constraints is the unchanged state together
    with a failure, which is [Infeasible] whenever the collection of the
    constraints itself succeeded. *)
Theorem contradictory_hard_constraints_infeasible
    (c1 c2 : Linear) (x : VariableHandle) (a b : number) :
  forces c1 x a → forces c2 x b → a ≠ b →
  (∀ s, c1 ∈ constraints s → c2 ∈ constraints s →
        solve_spec s (Failed Infeasible) ∧
        (∀ r, solve_spec s r → r = Failed Infeasible) ∧
        ∀ r st, solve_spec s r →
                applyResult s r st = (st, Some Infeasible)) ∧
  (∀ ext st, c1 ∈ ext → c2 ∈ ext →
        (∀ out, solveCycle ext st out → out.1 = st ∧ is_Some out.2) ∧
        ((collect ext st).2 = Normal tt →
         solveCycle ext st (st, Some Infeasible) ∧
         ∀ out, solveCycle ext st out → out = (st, Some Infeasible))).
Proof.
  intros Hf1 Hf2 Hab.
  assert (∀ s, c1 ∈ constraints s → c2 ∈ constraints s →
               solve_spec s (Failed Infeasible) ∧
               ∀ r, solve_spec s r → r = Failed Infeasible) as Hsolve.
  { intros s Ha Hb. split.
    - split; [done|]. intros ρ. by apply forced_apart with c1 c2 x a b.
    - intros [ρ|e] Hr; cbn in Hr.
      + destruct Hr as [Hh _].
        by destruct (forced_apart ρ s c1 c2 x a b).
      + by destruct Hr as [-> _]. }
  split.
  - intros s Ha Hb. destruct (Hsolve s Ha Hb) as [H1 H2].
    split; [done|]. split; [done|]. intros r st Hr. by rewrite (H2 r Hr).
  - intros ext st Ha Hb.
    assert (∀ s, collect ext st = (s, Normal tt) →
                 c1 ∈ constraints s ∧ c2 ∈ constraints s) as Hin.
    { intros s Hc. rewrite (collect_constraints ext st s Hc).
      split; apply elem_of_app; by right. }
    split.
    + intros out. unfold solveCycle.
      destruct (collect ext st) as [s [[]|e]] eqn:Hc.
      * intros (r & Hr & ->). destruct (Hin s eq_refl) as [Ha' Hb'].
        destruct (Hsolve s Ha' Hb') as [_ H2]. rewrite (H2 r Hr). by cbn.
      * intros ->. by cbn.
    + unfold solveCycle.
      destruct (collect ext st) as [s [[]|e]] eqn:Hc; [|done]. intros _.
      destruct (Hin s eq_refl) as [Ha' Hb'].
      destruct (Hsolve s Ha' Hb') as [H1 H2]. split.
      * by exists (Failed Infeasible).
      * intros out (r & Hr & ->). by rewrite (H2 r Hr).
Qed.

Lemma contradictory_hard_constraints_infeasible_witness :
  let c1 := pin (gv "x1") 0 in
  let c2 := pin (gv "x1") (num 5) in
  forces c1 (gv "x1") 0 ∧ forces c2 (gv "x1") (num 5) ∧ 0 ≠ num 5 ∧
  ∀ s, c1 ∈ constraints s → c2 ∈ constraints s →
       solve_spec s (Failed Infeasible) ∧
       (∀ r, solve_spec s r → r = Failed Infeasible) ∧
       ∀ r st, solve_spec s r → applyResult s r st = (st, Some Infeasible).
Proof.
  cbv zeta.
  assert (0 ≠ num 5) as H by (apply (bool_decide_unpack _); vm_compute; exact I).
  split; [apply pin_forces|]. split; [apply pin_forces|]. split; [exact H|].
  apply (contradictory_hard_constraints_infeasible
           (pin (gv "x1") 0) (pin (gv "x1") (num 5)) (gv "x1") 0 (num 5)
           (pin_forces _ _) (pin_forces _ _) H).
Defined.

(** * Further properties of the rectangle glyph *)

(** ** The attribute table *)

Lemma attributeDescriptions_entries k d :
  RectangleGlyph.attributeDescriptions !! k = Some d →
  (k, d) ∈ [ ("x1", RectangleGlyph.positional "x1");
             ("y1", RectangleGlyph.positional "y1");
             ("x2", RectangleGlyph.positional "x2");
             ("y2", RectangleGlyph.positional "y2");
             ("x", RectangleGlyph.positional "x");
             ("y", RectangleGlyph.positional "y");
             ("width", RectangleGlyph.dimension "width" "Width");
             ("height", RectangleGlyph.dimension "height" "Height");
             ("ix1", RectangleGlyph.positional "ix1");
             ("iy1", RectangleGlyph.positional "iy1");
             ("ix2", RectangleGlyph.positional "ix2");
             ("iy2", RectangleGlyph.positional "iy2");
             ("icx", RectangleGlyph.positional "icx");
             ("icy", RectangleGlyph.positional "icy") ].
Proof. apply elem_of_list_to_map_2. Qed.

Ltac each_entry H :=
  repeat (apply elem_of_cons in H as [[= -> ->]|H]);
  [..|by apply elem_of_nil in H].

(** X1: the attribute table and the list of attribute names declare the
    same fourteen attributes; every entry is filed under its own name and
    is a number; the positional ones carry no range and strength NONE,
    the intrinsic ones are exactly width and height, with range
    [30, 200] and strength WEAKER. *)
Theorem attributeDescriptions_agree_with_names :
  dom RectangleGlyph.attributeDescriptions = schema ∧
  ∀ k d, RectangleGlyph.attributeDescriptions !! k = Some d →
    name d = k ∧ type d = "number" ∧
    ((mode d = "positional" ∧ (k ∉ ["width"; "height"]) ∧
      defaultRange d = None ∧ desc_strength d = NONE) ∨
     (mode d = "intrinsic" ∧ k ∈ ["width"; "height"] ∧
      defaultRange d = Some (num 30, num 200) ∧ desc_strength d = WEAKER)).
Proof.
  split.
  - unfold RectangleGlyph.attributeDescriptions.
    by rewrite dom_list_to_map_L.
  - intros k d H. apply attributeDescriptions_entries in H.
    each_entry H; (split; [done|]); (split; [done|]);
      first [ left; repeat split; try done;
              apply (bool_decide_unpack _); vm_compute; exact I
            | right; repeat split; try done;
              repeat first [apply list_elem_of_here
                           |apply list_elem_of_further] ].
Qed.

(** X2: the width and the height [initializeState] assigns lie within the
    default range the attribute table declares for them. *)
Theorem initializeState_within_defaultRange
    (st : GlyphState) (k : string) (d : AttributeDescription)
    (lo hi q : number) :
  RectangleGlyph.attributeDescriptions !! k = Some d →
  defaultRange d = Some (lo, hi) →
  attributes (RectangleGlyph.initializeState st) !! k = Some q →
  lo ≤ q ≤ hi.
Proof.
  intros Hd Hrange Hq. rewrite initializeState_attributes in Hq.
  destruct (defaultAttributes_lookup (attributes st))
    as (_ & _ & Dw & Dh & _).
  apply attributeDescriptions_entries in Hd.
  each_entry Hd; try discriminate Hrange; injection Hrange as <- <-.
  - rewrite Dw in Hq. injection Hq as <-.
    apply (bool_decide_unpack _). vm_compute. exact I.
  - rewrite Dh in Hq. injection Hq as <-.
    apply (bool_decide_unpack _). vm_compute. exact I.
Qed.

Lemma initializeState_within_defaultRange_witness :
  let st := RectangleGlyph.freshState [] in
  RectangleGlyph.attributeDescriptions !! "width"
    = Some (RectangleGlyph.dimension "width" "Width") ∧
  defaultRange (RectangleGlyph.dimension "width" "Width")
    = Some (num 30, num 200) ∧
  attributes (RectangleGlyph.initializeState st) !! "width" = Some (num 60) ∧
  num 30 ≤ num 60 ≤ num 200.
Proof.
  cbv zeta.
  assert (RectangleGlyph.attributeDescriptions !! "width"
          = Some (RectangleGlyph.dimension "width" "Width")) as H1
    by reflexivity.
  assert (attributes (RectangleGlyph.initializeState
                        (RectangleGlyph.freshState [])) !! "width"
          = Some (num 60)) as H3.
  { rewrite initializeState_attributes.
    by destruct (defaultAttributes_lookup
                   (attributes (RectangleGlyph.freshState [])))
      as (_ & _ & Dw & _). }
  split; [exact H1|]. split; [reflexivity|]. split; [exact H3|].
  exact (initializeState_within_defaultRange _ _ _ _ _ _ H1 eq_refl H3).
Defined.

(** ** Re-initialization *)

Lemma not_in_names k :
  k ∉ RectangleGlyph.attributeNames →
  k ≠ "x1" ∧ k ≠ "y1" ∧ k ≠ "x2" ∧ k ≠ "y2" ∧ k ≠ "x" ∧ k ≠ "y" ∧
  k ≠ "width" ∧ k ≠ "height" ∧ k ≠ "ix1" ∧ k ≠ "iy1" ∧ k ≠ "ix2" ∧
  k ≠ "iy2" ∧ k ≠ "icx" ∧ k ≠ "icy".
Proof.
  unfold RectangleGlyph.attributeNames. rewrite !not_elem_of_cons. tauto.
Qed.

Lemma defaultAttributes_other prior k :
  k ∉ RectangleGlyph.attributeNames →
  defaultAttributes prior !! k = prior !! k.
Proof.
  intros H. apply not_in_names in H.
  destruct H as (? & ? & ? & ? & ? & ? & ? & ? & ? & ? & ? & ? & ? & ?).
  unfold defaultAttributes. by rewrite !lookup_insert_ne.
Qed.

Lemma defaultAttributes_declared prior prior' k :
  k ∈ RectangleGlyph.attributeNames →
  defaultAttributes prior !! k = defaultAttributes prior' !! k.
Proof.
  intros H.
  destruct (defaultAttributes_lookup prior)
    as (? & ? & ? & ? & ? & ? & ? & ? & ? & ? & ? & ? & ? & ?).
  destruct (defaultAttributes_lookup prior')
    as (? & ? & ? & ? & ? & ? & ? & ? & ? & ? & ? & ? & ? & ?).
  unfold RectangleGlyph.attributeNames in H.
  repeat (apply elem_of_cons in H as [->|H]; [congruence|]).
  by apply elem_of_nil in H.
Qed.

Lemma GlyphState_eq st st' :
  attributes st = attributes st' → marks st = marks st' → st = st'.
Proof. destruct st, st'; cbn; by intros -> ->. Qed.

Lemma in_names_dec k :
  k ∈ RectangleGlyph.attributeNames ∨ k ∉ RectangleGlyph.attributeNames.
Proof. destruct (decide (k ∈ RectangleGlyph.attributeNames)); auto. Qed.

(** X3: [initializeState] is idempotent; it leaves the marks and every
    attribute outside the fourteen declared ones as they were, and what it
    leaves in the declared ones does not depend on the state it starts
    from. *)
Theorem initializeState_idempotent (st : GlyphState) :
  RectangleGlyph.initializeState (RectangleGlyph.initializeState st)
  = RectangleGlyph.initializeState st ∧
  marks (RectangleGlyph.initializeState st) = marks st ∧
  (∀ k, k ∉ RectangleGlyph.attributeNames →
        attributes (RectangleGlyph.initializeState st) !! k
        = attributes st !! k) ∧
  (∀ st' k, k ∈ RectangleGlyph.attributeNames →
        attributes (RectangleGlyph.initializeState st) !! k
        = attributes (RectangleGlyph.initializeState st') !! k).
Proof.
  split; [|split; [done|split]].
  - apply GlyphState_eq; [|done]. rewrite !initializeState_attributes.
    apply map_eq. intros k. destruct (in_names_dec k) as [H|H].
    + by apply defaultAttributes_declared.
    + by rewrite defaultAttributes_other.
  - intros k H. rewrite initializeState_attributes.
    by apply defaultAttributes_other.
  - intros st' k H. rewrite !initializeState_attributes.
    by apply defaultAttributes_declared.
Qed.

(** ** Sessions over allocated variables *)

Lemma allocate_all_old new old :
  old.*1 ⊆ (allocate_all new old).*1.
Proof.
  revert old. induction new as [|[v q] new IH]; intros old x Hx; [done|].
  cbn. apply IH. case_bool_decide; [done|].
  rewrite fmap_app. apply elem_of_app. by left.
Qed.

Lemma allocate_all_new new old :
  new.*1 ⊆ (allocate_all new old).*1.
Proof.
  revert old. induction new as [|[v q] new IH]; intros old x Hx.
  - by apply elem_of_nil in Hx.
  - cbn in Hx. apply elem_of_cons in Hx as [->|Hx]; cbn.
    + apply allocate_all_old. case_bool_decide; [done|].
      rewrite fmap_app. apply elem_of_app. right. left.
    + by apply IH.
Qed.

Lemma allocate_all_only new old :
  (allocate_all new old).*1 ⊆ old.*1 ++ new.*1.
Proof.
  revert old. induction new as [|[v q] new IH]; intros old x Hx.
  - cbn in Hx. by rewrite app_nil_r.
  - cbn in Hx. apply IH in Hx. cbn.
    apply elem_of_app in Hx as [Hx|Hx].
    + case_bool_decide.
      * apply elem_of_app. by left.
      * rewrite fmap_app in Hx. apply elem_of_app in Hx as [Hx|Hx].
        -- apply elem_of_app. by left.
        -- apply list_elem_of_singleton in Hx as ->.
           apply elem_of_app. right. left.
    + apply elem_of_app. right. by right.
Qed.

Lemma intrinsic_handles c v :
  c ∈ intrinsic → v ∈ handles_of c →
  ∀ attrs mark0, v ∈ (intrinsic_variables attrs mark0).*1.
Proof.
  intros Hc Hv attrs mark0. unfold intrinsic in Hc.
  repeat (apply elem_of_cons in Hc as [->|Hc];
          [cbn in Hv;
           repeat (apply elem_of_cons in Hv as [->|Hv];
                   [cbn; repeat first [apply list_elem_of_here
                                      |apply list_elem_of_further]|]);
           by apply elem_of_nil in Hv|]).
  by apply elem_of_nil in Hc.
Qed.

Lemma mark_free_handles c v :
  c ∈ take 8 intrinsic → v ∈ handles_of c →
  var_owner v = OGlyph ∧ var_name v ∈ RectangleGlyph.attributeNames.
Proof.
  intros Hc Hv. cbn in Hc.
  repeat (apply elem_of_cons in Hc as [->|Hc];
          [cbn in Hv;
           repeat (apply elem_of_cons in Hv as [->|Hv];
                   [split; [done|]; cbn; in_names|]);
           by apply elem_of_nil in Hv|]).
  by apply elem_of_nil in Hc.
Qed.

Lemma glyph_variables_names attrs v :
  v ∈ (glyph_variables attrs).*1 ↔
  var_owner v = OGlyph ∧ var_name v ∈ RectangleGlyph.attributeNames.
Proof.
  unfold glyph_variables. rewrite <- list_fmap_compose. split.
  - intros H. apply list_elem_of_fmap in H as (k & -> & Hk). by split.
  - intros [Ho Hk]. apply list_elem_of_fmap. exists (var_name v).
    split; [|done]. destruct v as [o k]. cbn in *. by subst o.
Qed.

(** X4: [buildIntrinsicConstraints] keeps a session closed: if every
    constraint of the session was over allocated variables before, so it
    is afterwards, whether the call completes or raises. *)
Theorem buildIntrinsicConstraints_closed
    (st : GlyphState) (s0 : ConstraintSolver) :
  closed s0 →
  closed (RectangleGlyph.buildIntrinsicConstraints st s0).1.
Proof.
  intros H0 c t Hc Ht.
  assert (t.2 ∈ handles_of c) as Hv.
  { unfold handles_of. apply list_elem_of_fmap. by exists t. }
  destruct (marks st) as [|m ms] eqn:Hm.
  - rewrite (build_run_no_marks st s0 Hm) in Hc |- *.
    cbn [fst constraints variables] in *.
    rewrite register_all_app in Hc. apply elem_of_app in Hc as [Hc|Hc].
    + apply allocate_all_old. by apply (H0 c t).
    + apply allocate_all_new. apply glyph_variables_names.
      by apply (mark_free_handles c).
  - rewrite (build_run st m ms s0 Hm) in Hc |- *.
    cbn [fst constraints variables] in *.
    rewrite register_all_app in Hc. apply elem_of_app in Hc as [Hc|Hc].
    + apply allocate_all_old. by apply (H0 c t).
    + apply allocate_all_new. by apply (intrinsic_handles c).
Qed.

Lemma buildIntrinsicConstraints_closed_witness :
  closed newSolver ∧
  closed (RectangleGlyph.buildIntrinsicConstraints
            (RectangleGlyph.freshState []) newSolver).1.
Proof.
  assert (closed newSolver) as H.
  { intros c t Hc. by apply elem_of_nil in Hc. }
  split; [exact H|]. exact (buildIntrinsicConstraints_closed _ _ H).
Defined.

(** X5: on a glyph without marks [buildIntrinsicConstraints] raises only
    after it has touched the session: the fourteen variables of the glyph
    are allocated and the eight equations that involve no mark are
    registered, and nothing else is added. *)
Theorem buildIntrinsicConstraints_partial_on_failure
    (st : GlyphState) (s0 : ConstraintSolver) :
  marks st = [] →
  ∃ s, RectangleGlyph.buildIntrinsicConstraints st s0 = (s, Throw TypeError) ∧
       constraints s = constraints s0 ++ take 8 intrinsic ∧
       (∀ c v, c ∈ take 8 intrinsic → v ∈ handles_of c →
               var_owner v = OGlyph) ∧
       (∀ v, v ∈ (variables s).*1 ↔
             v ∈ (variables s0).*1 ∨
             (var_owner v = OGlyph ∧
              var_name v ∈ RectangleGlyph.attributeNames)).
Proof.
  intros Hm. eexists. split; [by apply build_run_no_marks|].
  cbn [constraints variables]. split; [apply register_all_app|]. split.
  - intros c v Hc Hv. by apply (mark_free_handles c v).
  - intros v. rewrite <- (glyph_variables_names (attributes st)). split.
    + intros H. apply allocate_all_only in H. by apply elem_of_app in H.
    + intros [H|H]; [by apply allocate_all_old | by apply allocate_all_new].
Qed.

Lemma buildIntrinsicConstraints_partial_on_failure_witness :
  let st := RectangleGlyph.initializeState (RectangleGlyph.freshState []) in
  marks st = [] ∧
  ∃ s, RectangleGlyph.buildIntrinsicConstraints st newSolver
       = (s, Throw TypeError) ∧
       constraints s = constraints newSolver ++ take 8 intrinsic ∧
       (∀ c v, c ∈ take 8 intrinsic → v ∈ handles_of c →
               var_owner v = OGlyph) ∧
       (∀ v, v ∈ (variables s).*1 ↔
             v ∈ (variables newSolver).*1 ∨
             (var_owner v = OGlyph ∧
              var_name v ∈ RectangleGlyph.attributeNames)).
Proof.
  cbv zeta. split; [reflexivity|].
  exact (buildIntrinsicConstraints_partial_on_failure
           (RectangleGlyph.initializeState (RectangleGlyph.freshState []))
           newSolver eq_refl).
Defined.

(** ** The equations in solved form *)

Lemma half_inv : num 0.5 = / (1 + 1).
Proof. num_compute. Qed.

Lemma two_neq_0 : (1 + 1 : number) ≠ 0.
Proof. apply (bool_decide_unpack _). vm_compute. exact I. Qed.

(** Identities of the field of rationals in which 0.5 occurs. *)
Ltac half_field := rewrite ?half_inv; field; try apply two_neq_0.

Lemma frame_solved (lo hi w : number) :
  hi - lo = w ∧ lo + hi = 0 ↔ lo = - (num 0.5 * w) ∧ hi = num 0.5 * w.
Proof.
  split.
  - intros [<- H0].
    assert (lo = - hi) as ->.
    { apply number_sub_0. rewrite <- H0. ring. }
    split; half_field.
  - intros [-> ->]. split; half_field.
Qed.

Lemma box_solved (lo hi c w m : number) :
  hi - lo = w ∧ c = num 0.5 * lo + num 0.5 * hi + m ↔
  lo = c - m - num 0.5 * w ∧ hi = c - m + num 0.5 * w.
Proof.
  split.
  - intros [<- ->]. split; half_field.
  - intros [-> ->]. split; half_field.
Qed.

Lemma satisfies_equations_solved ρ : satisfies_equations ρ ↔ solved_form ρ.
Proof.
  unfold satisfies_equations, rectangle_equations, solved_form.
  rewrite !Forall_cons, Forall_nil. cbv beta.
  pose proof (frame_solved (ρ (gv "ix1")) (ρ (gv "ix2")) (ρ (gv "width"))).
  pose proof (frame_solved (ρ (gv "iy1")) (ρ (gv "iy2")) (ρ (gv "height"))).
  pose proof (box_solved (ρ (gv "x1")) (ρ (gv "x2")) (ρ (gv "x"))
                (ρ (gv "width")) (ρ (mv0 "x"))).
  pose proof (box_solved (ρ (gv "y1")) (ρ (gv "y2")) (ρ (gv "y"))
                (ρ (gv "height")) (ρ (mv0 "y"))).
  tauto.
Qed.

Lemma solved_state_values x y w h mx my :
  let ρ := valuation_of (solved_state x y w h mx my) in
  ρ (gv "x") = x ∧ ρ (gv "y") = y ∧
  ρ (gv "width") = w ∧ ρ (gv "height") = h ∧
  ρ (mv0 "x") = mx ∧ ρ (mv0 "y") = my.
Proof. cbv zeta. unfold valuation_of, read_var. cbn. by simplify_map_eq. Qed.

Lemma solved_state_solved x y w h mx my :
  solved_form (valuation_of (solved_state x y w h mx my)).
Proof.
  unfold solved_form, valuation_of, read_var. cbn. by simplify_map_eq.
Qed.


(** X7: the constraints a rectangle glyph emits into a new session can
    always be met, so solving them alone never reports [Infeasible]. *)
Theorem intrinsic_constraints_feasible (st : GlyphState) s :
  RectangleGlyph.buildIntrinsicConstraints st newSolver = (s, Normal tt) →
  (∃ ρ, satisfies_hard ρ s) ∧
  ∀ r, solve_spec s r → ∃ ρ, r = Solved ρ ∧ satisfies_hard ρ s.
Proof.
  intros Hb.
  assert (∃ ρ, satisfies_hard ρ s) as [ρ0 Hρ0].
  { destruct (marks st) as [|m ms] eqn:Hm.
    - by rewrite (build_run_no_marks st newSolver Hm) in Hb.
    - rewrite (build_newSolver st m ms Hm) in Hb. injection Hb as <-.
      exists (valuation_of (solved_state 0 0 0 0 0 0)).
      unfold satisfies_hard.
      change (tier HARD _) with (tier HARD (intrinsic_session st m)).
      rewrite tier_HARD_intrinsic.
      apply intrinsic_holds, satisfies_equations_solved,
        solved_state_solved. }
  split; [by exists ρ0|].
  intros [ρ|e] Hr; cbn in Hr.
  - exists ρ. split; [done|]. apply Hr.
  - destruct Hr as [_ Hr]. by destruct (Hr ρ0).
Qed.

Lemma intrinsic_constraints_feasible_witness :
  let st := RectangleGlyph.freshState [mkMarkState ∅] in
  let s := intrinsic_session st (mkMarkState ∅) in
  RectangleGlyph.buildIntrinsicConstraints st newSolver = (s, Normal tt) ∧
  (∃ ρ, satisfies_hard ρ s) ∧
  ∀ r, solve_spec s r → ∃ ρ, r = Solved ρ ∧ satisfies_hard ρ s.
Proof.
  cbv zeta.
  assert (RectangleGlyph.buildIntrinsicConstraints
            (RectangleGlyph.freshState [mkMarkState ∅]) newSolver
          = (intrinsic_session (RectangleGlyph.freshState [mkMarkState ∅])
                               (mkMarkState ∅), Normal tt)) as H
    by (by apply build_newSolver with []).
  split; [exact H|]. exact (intrinsic_constraints_feasible _ _ H).
Defined.

(** ** Guides and handles *)

(** X8: every handle acts on an attribute that an alignment guide tracks,
    on the same axis and with the same value; the only guides without a
    handle are the two centre guides icx and icy. *)
Theorem handles_have_guides (st : GlyphState) :
  Forall (λ h, ∃ g, g ∈ RectangleGlyph.getAlignmentGuides st ∧
                    Handles.actions h
                    = [Handles.mkAction "attribute"
                         (SnappingGuides.attribute g)] ∧
                    SnappingGuides.type g = Handles.axis h ∧
                    SnappingGuides.value g = Handles.value h)
         (RectangleGlyph.getHandles st) ∧
  Forall (λ g, (∃ h, h ∈ RectangleGlyph.getHandles st ∧
                     Handles.actions h
                     = [Handles.mkAction "attribute"
                          (SnappingGuides.attribute g)]) ∨
               SnappingGuides.attribute g ∈ ["icx"; "icy"])
         (RectangleGlyph.getAlignmentGuides st).
Proof.
  unfold RectangleGlyph.getHandles, RectangleGlyph.getAlignmentGuides.
  split; each_element.
  - eexists. split; [apply list_elem_of_here|done].
  - eexists. split; [do 1 apply list_elem_of_further;
                     apply list_elem_of_here|done].
  - eexists. split; [do 3 apply list_elem_of_further;
                     apply list_elem_of_here|done].
  - eexists. split; [do 4 apply list_elem_of_further;
                     apply list_elem_of_here|done].
  - left. eexists. split; [apply list_elem_of_here|done].
  - left. eexists. split; [do 1 apply list_elem_of_further;
                           apply list_elem_of_here|done].
  - right. cbn. apply list_elem_of_here.
  - left. eexists. split; [do 2 apply list_elem_of_further;
                           apply list_elem_of_here|done].
  - left. eexists. split; [do 3 apply list_elem_of_further;
                           apply list_elem_of_here|done].
  - right. cbn. apply list_elem_of_further, list_elem_of_here.
Qed.

(** X9: a write to an attribute shows in the handles and guides of that
    attribute and in no other: after [attrs[a] = v] the handle and the
    guide of [a] carry [v], those of every other attribute keep their
    value, and a write to an attribute without handle or guide, or a
    change of the marks, changes neither list. *)
Theorem attribute_write_shows (st : GlyphState) (a : string) (v : number) :
  let st' := set_attribute a v st in
  Forall2 (λ h h', Handles.type h' = Handles.type h ∧
                   Handles.axis h' = Handles.axis h ∧
                   Handles.actions h' = Handles.actions h ∧
                   Handles.span h' = Handles.span h ∧
                   Handles.value h'
                   = if decide (Handles.actions h
                                = [Handles.mkAction "attribute" a])
                     then Some v else Handles.value h)
          (RectangleGlyph.getHandles st) (RectangleGlyph.getHandles st') ∧
  Forall2 (λ g g', SnappingGuides.type g' = SnappingGuides.type g ∧
                   SnappingGuides.attribute g' = SnappingGuides.attribute g ∧
                   SnappingGuides.visible g' = SnappingGuides.visible g ∧
                   SnappingGuides.value g'
                   = if decide (SnappingGuides.attribute g = a)
                     then Some v else SnappingGuides.value g)
          (RectangleGlyph.getAlignmentGuides st)
          (RectangleGlyph.getAlignmentGuides st') ∧
  (a ∉ ["ix1"; "ix2"; "iy1"; "iy2"] →
   RectangleGlyph.getHandles st' = RectangleGlyph.getHandles st) ∧
  (a ∉ ["ix1"; "ix2"; "icx"; "iy1"; "iy2"; "icy"] →
   RectangleGlyph.getAlignmentGuides st'
   = RectangleGlyph.getAlignmentGuides st) ∧
  (∀ ms, RectangleGlyph.getHandles (mkGlyphState (attributes st) ms)
         = RectangleGlyph.getHandles st ∧
         RectangleGlyph.getAlignmentGuides (mkGlyphState (attributes st) ms)
         = RectangleGlyph.getAlignmentGuides st).
Proof.
  cbv zeta.
  unfold RectangleGlyph.getHandles, RectangleGlyph.getAlignmentGuides,
    set_attribute. cbn [attributes].
  split; [|split; [|split; [|split]]].
  - repeat (apply List.Forall2_cons; [|]); try apply List.Forall2_nil;
      cbn; (repeat (split; [done|])); rewrite lookup_insert;
      repeat case_decide; congruence.
  - repeat (apply List.Forall2_cons; [|]); try apply List.Forall2_nil;
      cbn; (repeat (split; [done|])); rewrite lookup_insert;
      repeat case_decide; congruence.
  - rewrite !not_elem_of_cons. intros (? & ? & ? & ? & _).
    by rewrite !lookup_insert_ne.
  - rewrite !not_elem_of_cons. intros (? & ? & ? & ? & ? & ? & _).
    by rewrite !lookup_insert_ne.
  - done.
Qed.

Lemma schema_complete_lookup st k :
  schema_complete st → k ∈ RectangleGlyph.attributeNames →
  attributes st !! k = Some (valuation_of st (gv k)).
Proof.
  intros H Hk. apply elem_of_schema in Hk. rewrite <- H in Hk.
  apply elem_of_dom in Hk as [q Hq].
  unfold valuation_of, read_var. cbn [gv var_owner var_name]. by rewrite Hq.
Qed.

(** X10: in every schema-complete state that satisfies the equations of
    the glyph the handles sit at half the size: the x handles at -width/2
    and width/2, the y handles at -height/2 and height/2. *)
Theorem handles_at_half_size (st : GlyphState) :
  schema_complete st →
  satisfies_equations (valuation_of st) →
  let w := valuation_of st (gv "width") in
  let h := valuation_of st (gv "height") in
  Handles.value <$> RectangleGlyph.getHandles st
  = [ Some (- (num 0.5 * w)); Some (num 0.5 * w);
      Some (- (num 0.5 * h)); Some (num 0.5 * h) ].
Proof.
  intros Hc He. cbv zeta. apply satisfies_equations_solved in He.
  destruct He as (<- & <- & <- & <- & _).
  unfold RectangleGlyph.getHandles. cbn [fmap list_fmap Handles.value].
  rewrite !(schema_complete_lookup st) by (done || in_names). done.
Qed.

Lemma handles_at_half_size_witness :
  let st := RectangleGlyph.initializeState
              (RectangleGlyph.freshState [mkMarkState {["x" := 0; "y" := 0]}])
  in
  schema_complete st ∧
  satisfies_equations (valuation_of st) ∧
  Handles.value <$> RectangleGlyph.getHandles st
  = [ Some (- (num 0.5 * valuation_of st (gv "width")));
      Some (num 0.5 * valuation_of st (gv "width"));
      Some (- (num 0.5 * valuation_of st (gv "height")));
      Some (num 0.5 * valuation_of st (gv "height")) ].
Proof.
  cbv zeta.
  assert (schema_complete
            (RectangleGlyph.initializeState
               (RectangleGlyph.freshState
                  [mkMarkState {["x" := 0; "y" := 0]}]))) as Hc.
  { unfold schema_complete.
    rewrite initializeState_attributes, defaultAttributes_dom.
    cbn [RectangleGlyph.freshState attributes]. rewrite dom_empty_L.
    by rewrite (right_id_L ∅ (∪)). }
  assert (satisfies_equations
            (valuation_of
               (RectangleGlyph.initializeState
                  (RectangleGlyph.freshState
                     [mkMarkState {["x" := 0; "y" := 0]}])))) as He.
  { apply (default_state_equations _ (mkMarkState {["x" := 0; "y" := 0]}) []);
      [reflexivity | by simplify_map_eq | by simplify_map_eq]. }
  split; [exact Hc|]. split; [exact He|].
  exact (handles_at_half_size _ Hc He).
Defined.

(** ** What the glyph emits, and emitting again *)

Lemma allocate_all_same_names new new' old old' :
  new.*1 = new'.*1 → old.*1 = old'.*1 →
  (allocate_all new old).*1 = (allocate_all new' old').*1.
Proof.
  revert new' old old'.
  induction new as [|[v q] new IH]; intros [|[v' q'] new'] old old' Hn Ho;
    try done.
  cbn in Hn. injection Hn as -> Hn. cbn. apply IH; [done|].
  rewrite Ho. case_bool_decide; [done|]. by rewrite !fmap_app, Ho.
Qed.

Lemma allocate_all_known new old :
  new.*1 ⊆ old.*1 → allocate_all new old = old.
Proof.
  revert old. induction new as [|[v q] new IH]; intros old H; [done|].
  cbn. rewrite bool_decide_eq_true_2 by (apply H; left).
  apply IH. intros x Hx. apply H. by right.
Qed.

Lemma intrinsic_variables_names attrs mark0 attrs' mark0' :
  (intrinsic_variables attrs mark0).*1
  = (intrinsic_variables attrs' mark0').*1.
Proof. reflexivity. Qed.

(** X11: what the glyph emits is structural: for two glyph states that
    both own a mark, whatever their attribute values, the call completes
    alike, registers the same constraints and allocates the same
    variables. *)
Theorem buildIntrinsicConstraints_structural
    (st st' : GlyphState) (s0 : ConstraintSolver) :
  marks st ≠ [] → marks st' ≠ [] →
  (RectangleGlyph.buildIntrinsicConstraints st s0).2
  = (RectangleGlyph.buildIntrinsicConstraints st' s0).2 ∧
  similar (RectangleGlyph.buildIntrinsicConstraints st s0).1
          (RectangleGlyph.buildIntrinsicConstraints st' s0).1.
Proof.
  intros Hm Hm'.
  destruct (marks st) as [|m ms] eqn:E; [done|].
  destruct (marks st') as [|m' ms'] eqn:E'; [done|].
  rewrite (build_run st m ms s0 E), (build_run st' m' ms' s0 E').
  split; [done|]. split; [|done]. cbn [fst variables].
  by apply allocate_all_same_names.
Qed.

Lemma buildIntrinsicConstraints_structural_witness :
  let st := RectangleGlyph.freshState [mkMarkState ∅] in
  let st' := RectangleGlyph.initializeState
               (RectangleGlyph.freshState [mkMarkState {["x" := num 5]}]) in
  marks st ≠ [] ∧ marks st' ≠ [] ∧
  (RectangleGlyph.buildIntrinsicConstraints st newSolver).2
  = (RectangleGlyph.buildIntrinsicConstraints st' newSolver).2 ∧
  similar (RectangleGlyph.buildIntrinsicConstraints st newSolver).1
          (RectangleGlyph.buildIntrinsicConstraints st' newSolver).1.
Proof.
  cbv zeta.
  assert (marks (RectangleGlyph.freshState [mkMarkState ∅]) ≠ []) as H
    by discriminate.
  assert (marks (RectangleGlyph.initializeState
                   (RectangleGlyph.freshState
                      [mkMarkState {["x" := num 5]}])) ≠ []) as H'
    by discriminate.
  split; [exact H|]. split; [exact H'|].
  exact (buildIntrinsicConstraints_structural _ _ newSolver H H').
Defined.

(** X12: emitting a second time into the same session registers the ten
    constraints once more and allocates no variable: those of the first
    emission are found again, with the seeds they had. *)
Theorem buildIntrinsicConstraints_again
    (st st' : GlyphState) (s0 : ConstraintSolver) :
  marks st ≠ [] → marks st' ≠ [] →
  let s1 := (RectangleGlyph.buildIntrinsicConstraints st s0).1 in
  let s2 := (RectangleGlyph.buildIntrinsicConstraints st' s1).1 in
  variables s2 = variables s1 ∧
  constraints s1 = constraints s0 ++ intrinsic ∧
  constraints s2 = constraints s0 ++ intrinsic ++ intrinsic.
Proof.
  intros Hm Hm'. cbv zeta.
  destruct (marks st) as [|m ms] eqn:E; [done|].
  destruct (marks st') as [|m' ms'] eqn:E'; [done|].
  rewrite (build_run st m ms s0 E). cbn [fst].
  rewrite (build_run st' m' ms' _ E'). cbn [fst variables constraints].
  rewrite !register_all_app, <- app_assoc. split; [|done].
  apply allocate_all_known.
  rewrite (intrinsic_variables_names _ _ (attributes st) (mark_attributes m)).
  apply allocate_all_new.
Qed.

Lemma buildIntrinsicConstraints_again_witness :
  let st := RectangleGlyph.freshState [mkMarkState ∅] in
  let s1 := (RectangleGlyph.buildIntrinsicConstraints st newSolver).1 in
  let s2 := (RectangleGlyph.buildIntrinsicConstraints st s1).1 in
  marks st ≠ [] ∧
  variables s2 = variables s1 ∧
  constraints s1 = constraints newSolver ++ intrinsic ∧
  constraints s2 = constraints newSolver ++ intrinsic ++ intrinsic.
Proof.
  cbv zeta.
  assert (marks (RectangleGlyph.freshState [mkMarkState ∅]) ≠ []) as H
    by discriminate.
  split; [exact H|].
  exact (buildIntrinsicConstraints_again _ _ newSolver H H).
Defined.

(** ** The attribute panel *)

Lemma intrinsic_attribute_names :
  filter (λ k, declared_mode k = Some "intrinsic")
         RectangleGlyph.attributeNames
  = ["width"; "height"].
Proof. vm_compute. reflexivity. Qed.

(** X13: whatever the widget manager, the attribute panel of the glyph is
    one section header followed by one mapping editor for each attribute
    that the attribute table declares intrinsic, in the order of the
    attribute names, and by nothing else. *)
Theorem getAttributePanelWidgets_intrinsic
    {Widget : Type} (manager : Controls.WidgetManager Widget) :
  getAttributePanelWidgets manager
  = Controls.sectionHeader manager "Dimensions"
    :: (Controls.mappingEditorTOFIX manager
          <$> filter (λ k, declared_mode k = Some "intrinsic")
                     RectangleGlyph.attributeNames).
Proof. by rewrite intrinsic_attribute_names. Qed.

(** ** The default state and the first mark *)

(** X21: the state left by [initializeState] satisfies the equations of
    the glyph exactly when the first mark sits at the origin. *)
Theorem default_state_equations_iff (st : GlyphState) m ms (mx my : number) :
  marks st = m :: ms →
  mark_attributes m !! "x" = Some mx →
  mark_attributes m !! "y" = Some my →
  satisfies_equations (valuation_of (RectangleGlyph.initializeState st))
  ↔ mx = 0 ∧ my = 0.
Proof.
  intros Hm Hx Hy. split.
  - intros H. apply satisfies_equations_solved in H.
    destruct H as (_ & _ & _ & _ & _ & _ & H1 & _ & H2 & _).
    rewrite (valuation_of_first_mark st m ms "x" mx Hm Hx) in H1.
    rewrite (valuation_of_first_mark st m ms "y" my Hm Hy) in H2.
    destruct (defaultAttributes_lookup (attributes st))
      as (Dx & Dy & Dw & Dh & Dx1 & _ & Dy1 & _).
    rewrite (valuation_of_default st _ _ Dx),
      (valuation_of_default st _ _ Dw),
      (valuation_of_default st _ _ Dx1) in H1.
    rewrite (valuation_of_default st _ _ Dy),
      (valuation_of_default st _ _ Dh),
      (valuation_of_default st _ _ Dy1) in H2.
    split; apply number_sub_0.
    + replace (mx - 0) with (0 - num 0.5 * num 60 - (0 - mx - num 0.5 * num 60))
        by ring.
      rewrite <- H1. num_compute.
    + replace (my - 0)
        with (0 - num 0.5 * num 100 - (0 - my - num 0.5 * num 100)) by ring.
      rewrite <- H2. num_compute.
  - intros [-> ->]. by apply default_state_equations with m ms.
Qed.

Lemma default_state_equations_iff_witness :
  let m := mkMarkState {["x" := num 5; "y" := 0]} in
  let st := RectangleGlyph.freshState [m] in
  marks st = [m] ∧
  mark_attributes m !! "x" = Some (num 5) ∧
  mark_attributes m !! "y" = Some 0 ∧
  (satisfies_equations (valuation_of (RectangleGlyph.initializeState st))
   ↔ num 5 = 0 ∧ (0 : number) = 0).
Proof.
  cbv zeta.
  assert (mark_attributes (mkMarkState {["x" := num 5; "y" := 0]}) !! "x"
          = Some (num 5)) as Hx by (by simplify_map_eq).
  assert (mark_attributes (mkMarkState {["x" := num 5; "y" := 0]}) !! "y"
          = Some 0) as Hy by (by simplify_map_eq).
  split; [reflexivity|]. split; [exact Hx|]. split; [exact Hy|].
  exact (default_state_equations_iff
           (RectangleGlyph.freshState
              [mkMarkState {["x" := num 5; "y" := 0]}])
           _ [] _ _ eq_refl Hx Hy).
Defined.

(** X22: in every schema-complete state that satisfies the equations of
    the glyph the alignment guides frame the origin: the x guides sit at
    -width/2, width/2 and 0, the y guides at -height/2, height/2 and 0. *)
Theorem guides_at_half_size (st : GlyphState) :
  schema_complete st →
  satisfies_equations (valuation_of st) →
  let w := valuation_of st (gv "width") in
  let h := valuation_of st (gv "height") in
  SnappingGuides.value <$> RectangleGlyph.getAlignmentGuides st
  = [ Some (- (num 0.5 * w)); Some (num 0.5 * w); Some 0;
      Some (- (num 0.5 * h)); Some (num 0.5 * h); Some 0 ].
Proof.
  intros Hc He. cbv zeta. apply satisfies_equations_solved in He.
  destruct He as (<- & <- & <- & <- & Hcx & Hcy & _).
  unfold RectangleGlyph.getAlignmentGuides.
  cbn [fmap list_fmap SnappingGuides.value].
  rewrite !(schema_complete_lookup st) by (done || in_names).
  by rewrite Hcx, Hcy.
Qed.

Lemma guides_at_half_size_witness :
  let st := RectangleGlyph.initializeState
              (RectangleGlyph.freshState [mkMarkState {["x" := 0; "y" := 0]}])
  in
  schema_complete st ∧
  satisfies_equations (valuation_of st) ∧
  SnappingGuides.value <$> RectangleGlyph.getAlignmentGuides st
  = [ Some (- (num 0.5 * valuation_of st (gv "width")));
      Some (num 0.5 * valuation_of st (gv "width")); Some 0;
      Some (- (num 0.5 * valuation_of st (gv "height")));
      Some (num 0.5 * valuation_of st (gv "height")); Some 0 ].
Proof.
  cbv zeta.
  assert (schema_complete
            (RectangleGlyph.initializeState
               (RectangleGlyph.freshState
                  [mkMarkState {["x" := 0; "y" := 0]}]))) as Hc.
  { unfold schema_complete.
    rewrite initializeState_attributes, defaultAttributes_dom.
    cbn [RectangleGlyph.freshState attributes]. rewrite dom_empty_L.
    by rewrite (right_id_L ∅ (∪)). }
  assert (satisfies_equations
            (valuation_of
               (RectangleGlyph.initializeState
                  (RectangleGlyph.freshState
                     [mkMarkState {["x" := 0; "y" := 0]}])))) as He.
  { apply (default_state_equations _ (mkMarkState {["x" := 0; "y" := 0]}) []);
      [reflexivity | by simplify_map_eq | by simplify_map_eq]. }
  split; [exact Hc|]. split; [exact He|].
  exact (guides_at_half_size _ Hc He).
Defined.

(** * Properties of the application shell *)

Section MainViewFacts.
Import MainView.

(** Case analysis over a component: whether the store holds messages, the
    configuration and the four flags. *)
Ltac each_component c :=
  destruct c as [[[[|size]] vc] [[] [] [] nm] [[] [] [] []]].

(** X14: every pane is shown exactly once: docked in its column when its
    flag is off, as a floating panel when the flag is on. *)
Theorem pane_docked_or_floating (c : Component) (p : Pane) :
  length (titled "MinimizablePane" (title p) (render c))
  = (if maximized p (state c) then 0 else 1)%nat ∧
  length (titled "FloatingPanel" (title p) (render c))
  = (if maximized p (state c) then 1 else 0)%nat.
Proof. each_component c; destruct p; vm_compute; done. Qed.

(** X15: maximizing a docked pane and closing the floating panel it
    becomes are inverse to each other: the handler of the docked pane
    turns on the flag of that pane and no other, the floating panel
    rendered next offers a close handler, and that handler restores the
    component as it was. *)
Theorem maximize_then_close (c : Component) (p : Pane) (u : StateUpdate) :
  onMaximize p c = Some u →
  maximized p (state c) = false ∧
  maximized p (state (withState u c)) = true ∧
  (∀ p', p' ≠ p →
         maximized p' (state (withState u c)) = maximized p' (state c)) ∧
  onMaximize p (withState u c) = None ∧
  ∃ u', onClose p (withState u c) = Some u' ∧
        withState u' (withState u c) = c.
Proof.
  intros H.
  each_component c; destruct p; vm_compute in H; try discriminate H;
    injection H as <-; vm_compute;
    (split; [done|]); (split; [done|]);
    (split; [by intros []|]); (split; [done|]);
    eexists; (split; [reflexivity|]); reflexivity.
Qed.

Lemma maximize_then_close_witness :
  let c := (constructor (mkProps (mkStore 0) None)).1 in
  let u := mkUpdate None (Some true) None None in
  onMaximize Layers c = Some u ∧
  maximized Layers (state c) = false ∧
  maximized Layers (state (withState u c)) = true ∧
  (∀ p', p' ≠ Layers →
         maximized p' (state (withState u c)) = maximized p' (state c)) ∧
  onMaximize Layers (withState u c) = None ∧
  ∃ u', onClose Layers (withState u c) = Some u' ∧
        withState u' (withState u c) = c.
Proof.
  cbv zeta. split; [reflexivity|].
  exact (maximize_then_close
           (constructor (mkProps (mkStore 0) None)).1 Layers
           (mkUpdate None (Some true) None None) eq_refl).
Defined.

(** X16: closing a floating panel and maximizing the pane again are
    inverse to each other as well. *)
Theorem close_then_maximize (c : Component) (p : Pane) (u : StateUpdate) :
  onClose p c = Some u →
  maximized p (state c) = true ∧
  maximized p (state (withState u c)) = false ∧
  (∀ p', p' ≠ p →
         maximized p' (state (withState u c)) = maximized p' (state c)) ∧
  onClose p (withState u c) = None ∧
  ∃ u', onMaximize p (withState u c) = Some u' ∧
        withState u' (withState u c) = c.
Proof.
  intros H.
  each_component c; destruct p; vm_compute in H; try discriminate H;
    injection H as <-; vm_compute;
    (split; [done|]); (split; [done|]);
    (split; [by intros []|]); (split; [done|]);
    eexists; (split; [reflexivity|]); reflexivity.
Qed.

Lemma close_then_maximize_witness :
  let c := withState (mkUpdate None None None (Some true))
                     (constructor (mkProps (mkStore 0) None)).1 in
  let u := mkUpdate None None None (Some false) in
  onClose Scales c = Some u ∧
  maximized Scales (state c) = true ∧
  maximized Scales (state (withState u c)) = false ∧
  (∀ p', p' ≠ Scales →
         maximized p' (state (withState u c)) = maximized p' (state c)) ∧
  onClose Scales (withState u c) = None ∧
  ∃ u', onMaximize Scales (withState u c) = Some u' ∧
        withState u' (withState u c) = c.
Proof.
  cbv zeta. split; [reflexivity|].
  exact (close_then_maximize
           (withState (mkUpdate None None None (Some true))
                      (constructor (mkProps (mkStore 0) None)).1) Scales
           (mkUpdate None None None (Some false)) eq_refl).
Defined.

(** X17: whatever the configuration and the flags, the dataset column,
    the toolbar, the column of editor panes and the chart are each laid
    out exactly once; the dataset column and the editor panes come before
    the chart exactly when they are configured on the left, and the
    toolbar comes before the chart unless it is configured on the right
    and is horizontal exactly when it is configured on top. *)
Theorem layout_follows_configuration (c : Component) :
  let count cls :=
    length (filter (λ e, has_string_prop "className" cls e)
                   (elements (render c))) in
  let toolbars := filter (has_tag "Toolbar") (elements (render c)) in
  count "charticulator__panel charticulator__panel-dataset" = 1%nat ∧
  count "charticulator__panel-editor-panel charticulator__panel-editor-panel-panes" = 1%nat ∧
  count "charticulator__panel-editor-panel charticulator__panel-editor-panel-chart" = 1%nat ∧
  (∃ layout, prop "layout" <$> toolbars = [Some (PString layout)] ∧
             (layout = "horizontal" ↔ ToolbarPosition (config c) = Top) ∧
             (layout = "vertical" ↔ ToolbarPosition (config c) ≠ Top)) ∧
  ∃ dataset panes chart toolbar,
    position_of_class "charticulator__panel charticulator__panel-dataset"
                      (render c) = Some dataset ∧
    position_of_class
      "charticulator__panel-editor-panel charticulator__panel-editor-panel-panes"
      (render c) = Some panes ∧
    position_of_class
      "charticulator__panel-editor-panel charticulator__panel-editor-panel-chart"
      (render c) = Some chart ∧
    fst <$> list_find (has_tag "Toolbar") (elements (render c))
      = Some toolbar ∧
    ((dataset < chart)%nat ↔ ColumnsPosition (config c) = Left) ∧
    ((panes < chart)%nat ↔ EditorPanelsPosition (config c) = Left) ∧
    ((toolbar < chart)%nat ↔ ToolbarPosition (config c) ≠ ToolbarRight).
Proof.
  each_component c; vm_compute;
    (split; [done|]); (split; [done|]); (split; [done|]);
    (split;
     [eexists; split; [reflexivity|]; split; split; intros H;
      try done; try discriminate H; by destruct H|]);
    do 4 eexists; (do 4 (split; [reflexivity|]));
    repeat split; intros H; try done; try lia; try discriminate H;
    try (by destruct H).
Qed.

(** X18: the column of editor panes is hidden exactly when none of its
    panes is left in it, and it does not depend on the Scales flag, whose
    pane lives in the dataset column. *)
Theorem panes_column_hidden_when_empty (c : Component) :
  (prop "style" (editorPanels c) = Some (PStyle [("display", Some "none")])
   ↔ filter (has_tag "MinimizablePane") (elements (editorPanels c)) = []) ∧
  (prop "style" (editorPanels c) = Some (PStyle [("display", None)])
   ↔ filter (has_tag "MinimizablePane") (elements (editorPanels c)) ≠ []) ∧
  ∀ b, editorPanels (withState (mkUpdate None None None (Some b)) c)
       = editorPanels c.
Proof.
  destruct c as [p cfg [[] [] [] []]]; vm_compute;
    (split; [split; intros H; done || discriminate H|]);
    (split; [split; intros H; done || discriminate H || by destruct H|]);
    done.
Qed.

(** X19: the panel of errors is shown exactly when the store holds
    messages; it belongs to the peer group of messages and carries no
    close handler. *)
Theorem errors_panel_when_messages (c : Component) :
  (λ e, (prop "peerGroup" e, prop "onClose" e))
    <$> titled "FloatingPanel" "Errors" (render c)
  = if decide (messageState_size (store (props c)) = 0%nat) then []
    else [(Some (PString "messages"), None)].
Proof. each_component c; vm_compute; done. Qed.

(** X20: a newly constructed view registers one listener for graphics
    events, uses the configuration it is given, or columns and editor
    panes on the left and the toolbar on top when it is given none, and
    shows every pane docked and no pane floating. *)
Theorem constructor_starts_docked (p : MainViewProps) :
  let c := (constructor p).1 in
  (constructor p).2 = [(EVENT_GRAPHICS, ForceUpdate)] ∧
  props c = p ∧
  config c = default (mkConfig Left Left Top None) (viewConfiguration p) ∧
  ∀ pane,
    maximized pane (state c) = false ∧
    length (titled "MinimizablePane" (title pane) (render c)) = 1%nat ∧
    titled "FloatingPanel" (title pane) (render c) = [].
Proof.
  cbv zeta. split; [done|]. split; [done|]. split; [by destruct p as [? []]|].
  intros pane.
  destruct p as [[[|size]] [[[] [] [] nm]|]]; destruct pane;
    vm_compute; done.
Qed.

End MainViewFacts.
